(** * openid-steam: the Steam OpenID 2.0 relying party of [demo.mjs]

    A shallow embedding of [demo.mjs] (the response parser, the identity
    extractor and the request handler) together with the properties its
    specification states about them.

    Conventions of the embedding.
    - A JavaScript string is a [string]: a sequence of code units, each an
      [ascii] (so the code units modelled are those below 256).  Every
      string operation the program uses ([length], [startsWith],
      [substring], [lastIndexOf], [split], [===]) works code unit by code
      unit and tells code units apart only by equality, so "character"
      below always means code unit.
    - JavaScript numbers that hold indices and status codes are [Z]
      ([lastIndexOf] answers [-1]).
    - A thrown exception is the left injection of a sum; the program text
      after the [throw] is not run.
    - The platform services the handler calls (the WHATWG URL query parser
      applied to the request target, and the HTTP client [undici.request])
      are parameters of the handler. *)

From Stdlib Require Import String Ascii List ZArith NArith Bool Lia Permutation Sorted.
Import ListNotations.

Local Open Scope string_scope.
Local Open Scope Z_scope.

(* ================================================================== *)
(** * Exceptions *)

(** The three kinds of exception the program can raise, each with its
    message: [new Error(msg)], the [AssertionError] of [assert.equal], and
    the [TypeError] of a method call on [null]. *)
Inductive exn : Type :=
| Error (message : string)
| AssertionError (message : string)
| TypeError (message : string).

Definition throws (A : Type) : Type := (exn + A)%type.

Definition ret {A : Type} (a : A) : throws A := inr a.
Definition throw {A : Type} (e : exn) : throws A := inl e.

Definition bind {A B : Type} (m : throws A) (k : A -> throws B) : throws B :=
  match m with
  | inl e => inl e
  | inr a => k a
  end.

Notation "x <- m ;; k" := (bind m (fun x => k))
  (at level 61, m at next level, right associativity).

(** [m] ended with an exception. *)
Definition failed {A : Type} (m : throws A) : Prop := exists e, m = inl e.

(* ================================================================== *)
(** * JavaScript string primitives *)

Module Js.

(** [s.length] *)
Definition length (s : string) : Z := Z.of_nat (String.length s).

(** [s.startsWith(p)] *)
Definition startsWith (s p : string) : bool := String.prefix p s.

(** [s === t] on strings *)
Definition seq (s t : string) : bool := String.eqb s t.

(** [!!s] on a string: true exactly when [s] is not empty. *)
Definition truthy (s : string) : bool :=
  match s with
  | EmptyString => false
  | String _ _ => true
  end.

Definition clamp (n len : Z) : Z := Z.max 0 (Z.min n len).

(** [s.substring(start, end)]: both indices are clamped to [0, length],
    swapped when [start > end], and the code units from the smaller
    (inclusive) to the larger (exclusive) are returned. *)
Definition substring (s : string) (start end_ : Z) : string :=
  let a := clamp start (length s) in
  let b := clamp end_ (length s) in
  let lo := Z.min a b in
  let hi := Z.max a b in
  String.substring (Z.to_nat lo) (Z.to_nat (hi - lo)) s.

(** [s.lastIndexOf(c)] for a one-code-unit search string [c], with [i]
    the index of the first code unit of [s]: the largest index holding
    [c], or [-1]. *)
Fixpoint lastIndexOf_from (c : ascii) (s : string) (i : Z) : Z :=
  match s with
  | EmptyString => -1
  | String a s' =>
      let r := lastIndexOf_from c s' (i + 1) in
      if 0 <=? r then r
      else if Ascii.eqb a c then i else -1
  end.

Definition lastIndexOf (s : string) (c : ascii) : Z := lastIndexOf_from c s 0.

(** [s.split(sep)] for a one-code-unit separator: the pieces between
    the separators, in order; the empty string gives one empty piece. *)
Fixpoint split (sep : ascii) (s : string) : list string :=
  match s with
  | EmptyString => [EmptyString]
  | String a s' =>
      if Ascii.eqb a sep then EmptyString :: split sep s'
      else match split sep s' with
           | [] => [String a EmptyString]
           | piece :: pieces => String a piece :: pieces
           end
  end.

End Js.

(** The line feed and the slash, the two separators of the program. *)
Definition LF : ascii := ascii_of_nat 10.
Definition SLASH : ascii := "/"%char.

(** The one-code-unit string ["\n"]. *)
Definition lf : string := String LF EmptyString.

(* ================================================================== *)
(** * Response parser: [parse_oid_check_authentication] *)

(** The object [result] while the loop fills it: each of the two
    properties is either absent or set. *)
Record partial_result : Type := mk_partial {
  p_ns : option string;
  p_is_valid : option bool
}.

(** The returned payload [{ ns, is_valid }]. *)
Record check_authentication : Type := mk_check {
  ns : string;
  is_valid : bool
}.

(** [const result = {}] *)
Definition empty_result : partial_result := mk_partial None None.

(** The body of the [for (const entry of entries)] loop. *)
Definition parse_entry (result : partial_result) (entry : string)
  : throws partial_result :=
  if Js.startsWith entry "ns:" then
    ret (mk_partial (Some (Js.substring entry (Js.length "ns:") (Js.length entry)))
                    (p_is_valid result))
  else if Js.startsWith entry "is_valid:" then
    let v := Js.substring entry (Js.length "is_valid:") (Js.length entry) in
    if Js.seq v "true" then ret (mk_partial (p_ns result) (Some true))
    else if Js.seq v "false" then ret (mk_partial (p_ns result) (Some false))
    else throw (Error "Could not parse value 'is_valid' as boolean")
  else throw (Error ("Unknown entry '" ++ entry ++ "'")).

(** The loop over the entries, stopping at the first exception. *)
Fixpoint parse_entries (entries : list string) (result : partial_result)
  : throws partial_result :=
  match entries with
  | [] => ret result
  | entry :: rest =>
      result' <- parse_entry result entry ;;
      parse_entries rest result'
  end.

(** [if ("ns" in result && "is_valid" in result) return result; else throw] *)
Definition check_complete (result : partial_result) : throws check_authentication :=
  match p_ns result, p_is_valid result with
  | Some n, Some b => ret (mk_check n b)
  | _, _ => throw (Error "Expected entries 'ns' and 'is_valid'")
  end.

(** [response.split("\n").filter(n => !!n)] *)
Definition entries_of (response : string) : list string :=
  filter Js.truthy (Js.split LF response).

Definition parse_oid_check_authentication (response : string)
  : throws check_authentication :=
  result <- parse_entries (entries_of response) empty_result ;;
  check_complete result.

(* ================================================================== *)
(** * Identity extractor: [parse_oid_claimed_id_steam] *)

(** [assert.equal(actual, true, message)] on a boolean [actual]. *)
Definition assert_equal_true (actual : bool) (message : string) : throws unit :=
  if actual then ret tt else throw (AssertionError message).

(** The argument is what [URLSearchParams.get] answers: a string, or
    [null] ([None]) when the parameter is absent.  Calling [lastIndexOf]
    on [null] raises a [TypeError]. *)
Definition parse_oid_claimed_id_steam (claimed_id : option string) : throws string :=
  match claimed_id with
  | None => throw (TypeError "Cannot read properties of null (reading 'lastIndexOf')")
  | Some claimed_id =>
      let idx := Js.lastIndexOf claimed_id SLASH in
      _ <- assert_equal_true (0 <? idx) "idx is gt 0" ;;
      let steam_id := Js.substring claimed_id (idx + 1) (Js.length claimed_id) in
      if negb (Js.length steam_id =? 17)
      then throw (Error "Could not parse Steam ID from 'claimed_id'")
      else ret steam_id
  end.

(* ================================================================== *)
(** * Ordinary objects used as string maps *)

Module Obj.

(** The own enumerable properties of an object whose keys and values
    are strings, in the order the properties were created. *)
Definition t : Type := list (string * string).

(** Defining a property, as an object literal does for each of its
    members: an existing key keeps its place and takes the new value, a
    new key is created last. *)
Fixpoint define (o : t) (k v : string) : t :=
  match o with
  | [] => [(k, v)]
  | (k', v') :: rest =>
      if String.eqb k' k then (k', v) :: rest
      else (k', v') :: define rest k v
  end.

(** The assignment [o[k] = v] with a string [v], on an object whose
    prototype is [Object.prototype]: the inherited setter [__proto__]
    takes the assignment of that key and ignores a value that is not an
    object; every other key is defined on [o] itself. *)
Definition set (o : t) (k v : string) : t :=
  if String.eqb k "__proto__" then o else define o k v.

Definition digit (a : ascii) : option N :=
  let n := N_of_ascii a in
  if ((48 <=? n) && (n <=? 57))%N then Some (n - 48)%N else None.

Fixpoint decimal (s : string) (acc : N) : option N :=
  match s with
  | EmptyString => Some acc
  | String a s' =>
      match digit a with
      | None => None
      | Some d => decimal s' (10 * acc + d)%N
      end
  end.

(** A key is an array index when it is the canonical decimal numeral
    (no sign, no leading zero) of an integer from 0 to 2^32 - 2. *)
Definition array_index (k : string) : option N :=
  match k with
  | EmptyString => None
  | String a s' =>
      if Ascii.eqb a "0"%char && negb (String.eqb s' EmptyString) then None
      else match decimal k 0%N with
           | Some n => if (n <=? 4294967294)%N then Some n else None
           | None => None
           end
  end.

Definition is_index (kv : string * string) : bool :=
  match array_index (fst kv) with
  | Some _ => true
  | None => false
  end.

Definition index_of (kv : string * string) : N :=
  match array_index (fst kv) with
  | Some n => n
  | None => 0%N
  end.

Fixpoint insert_by_index (kv : string * string) (l : list (string * string))
  : list (string * string) :=
  match l with
  | [] => [kv]
  | kv' :: rest =>
      if (index_of kv <=? index_of kv')%N then kv :: l
      else kv' :: insert_by_index kv rest
  end.

Definition sort_by_index (l : list (string * string)) : list (string * string) :=
  fold_right insert_by_index [] l.

(** [Object.entries(o)]: the array-index keys in ascending numeric
    order, then the other keys in creation order. *)
Definition entries (o : t) : list (string * string) :=
  (sort_by_index (filter is_index o)
   ++ filter (fun kv => negb (is_index kv)) o)%list.

End Obj.

(* ================================================================== *)
(** * URL records and the form-urlencoded serializer *)

Module Url.

(** A parsed URL: everything up to the query ([base]: scheme, authority
    and path), the query ([None] is the null query), the list of
    name-value pairs its [searchParams] object holds, and the fragment. *)
Record t : Type := mk {
  base : string;
  query : option string;
  searchParams : list (string * string);
  fragment : option string
}.

Definition hex_digit (n : N) : ascii :=
  ascii_of_N (if (n <? 10)%N then 48 + n else 55 + n)%N.

(** The percent escape [%XY] of the byte [b]. *)
Definition percent (b : N) : string :=
  String "%"%char
    (String (hex_digit (b / 16)) (String (hex_digit (b mod 16)) EmptyString)).

(** Bytes the serializer leaves as they are: ASCII letters and digits,
    and [*], [-], [.], [_]. *)
Definition unreserved (n : N) : bool :=
  (((48 <=? n) && (n <=? 57)) || ((65 <=? n) && (n <=? 90))
   || ((97 <=? n) && (n <=? 122))
   || (n =? 42) || (n =? 45) || (n =? 46) || (n =? 95))%N.

(** One code unit: a space becomes [+]; a code unit of 128 or more is
    escaped as the two bytes of its UTF-8 encoding. *)
Definition encode_unit (a : ascii) : string :=
  let n := N_of_ascii a in
  if (n =? 32)%N then "+"
  else if unreserved n then String a EmptyString
  else if (n <? 128)%N then percent n
  else percent (192 + n / 64) ++ percent (128 + n mod 64).

Fixpoint urlencode (s : string) : string :=
  match s with
  | EmptyString => EmptyString
  | String a s' => encode_unit a ++ urlencode s'
  end.

(** The application/x-www-form-urlencoded serializer: [name=value]
    pairs joined with [&]. *)
Fixpoint serialize (l : list (string * string)) : string :=
  match l with
  | [] => EmptyString
  | (k, v) :: rest =>
      match rest with
      | [] => urlencode k ++ "=" ++ urlencode v
      | _ :: _ => urlencode k ++ "=" ++ urlencode v ++ "&" ++ serialize rest
      end
  end.

(** [new URL(u)] on a URL object: a copy of [u]. *)
Definition new (u : t) : t := u.

(** [u.search = ""]: the query becomes null and the list of
    [searchParams] is emptied; the fragment is left alone. *)
Definition set_search_empty (u : t) : t :=
  mk (base u) None [] (fragment u).

(** [u.searchParams.append(k, v)]: the pair is added last and the query
    is set to the serialization of the list (null when that is empty). *)
Definition append (u : t) (k v : string) : t :=
  let l := (searchParams u ++ [(k, v)])%list in
  let s := serialize l in
  mk (base u) (if String.eqb s EmptyString then None else Some s) l (fragment u).

(** [u.toString()] *)
Definition toString (u : t) : string :=
  base u
  ++ match query u with None => EmptyString | Some q => "?" ++ q end
  ++ match fragment u with None => EmptyString | Some f => "#" ++ f end.

(** [params.get(name)]: the value of the first pair named [name], or
    [null]. *)
Fixpoint get (params : list (string * string)) (name : string) : option string :=
  match params with
  | [] => None
  | (k, v) :: rest => if String.eqb k name then Some v else get rest name
  end.

End Url.

(* ================================================================== *)
(** * The HTTP boundary *)

(** The request [i]: only its method and its target are read. *)
Record IncomingMessage : Type := mk_request {
  method : string;
  url : string
}.

(** The response [o]: status code, headers (keyed by lower-cased name),
    the body written so far, and whether [end()] was called. *)
Record ServerResponse : Type := mk_response {
  statusCode : Z;
  headers : list (string * string);
  body : string;
  ended : bool
}.

Definition lower_unit (a : ascii) : ascii :=
  let n := N_of_ascii a in
  if ((65 <=? n) && (n <=? 90))%N then ascii_of_N (n + 32) else a.

Fixpoint toLowerCase (s : string) : string :=
  match s with
  | EmptyString => EmptyString
  | String a s' => String (lower_unit a) (toLowerCase s')
  end.

(** [o.setHeader(name, value)]: replaces the header of that name. *)
Definition setHeader (o : ServerResponse) (name value : string) : ServerResponse :=
  let key := toLowerCase name in
  mk_response (statusCode o)
    (filter (fun h => negb (String.eqb (fst h) key)) (headers o) ++ [(key, value)])%list
    (body o) (ended o).

(** [o.getHeader(name)] *)
Definition getHeader (o : ServerResponse) (name : string) : option string :=
  Url.get (headers o) (toLowerCase name).

(** [o.statusCode = n] *)
Definition set_statusCode (o : ServerResponse) (n : Z) : ServerResponse :=
  mk_response n (headers o) (body o) (ended o).

(** [o.end()] without data: nothing is added to the body. *)
Definition end_ (o : ServerResponse) : ServerResponse :=
  mk_response (statusCode o) (headers o) (body o) true.

(** The response [http.createServer] hands to the handler. *)
Definition fresh_response : ServerResponse := mk_response 200 [] EmptyString false.

(** What [undici.request] resolves to: the status code and the body
    text ([Buffer.from(await response.body.arrayBuffer()).toString()]). *)
Record ClientResponse : Type := mk_client_response {
  res_statusCode : Z;
  res_body : string
}.

(** An outbound request: the URL object and the method. *)
Definition ClientRequest : Type := (Url.t * string)%type.

(** Lines written to the console (their timestamps left out; the
    parse-failure line carries the body text it dumps in hex). *)
Inductive log_entry : Type :=
| LogRequest (method url : string)
| LogParseFailure (status : Z) (body : string) (err_parse : exn)
| LogAuthenticated (claimed_steam_id : string) (is_valid : bool).

(** What one run of [handle] leaves behind: the response object, the
    outbound requests issued, the console lines, and how the [async]
    function settled ([inr tt]: returned; [inl e]: [e] was thrown and the
    promise is rejected). *)
Record Outcome : Type := mk_outcome {
  response : ServerResponse;
  requests : list ClientRequest;
  console : list log_entry;
  settled : throws unit
}.

Record Config : Type := mk_config {
  listen_host : string;
  listen_port : Z;
  steam_openid_url : Url.t;
  steam_openid_params : Obj.t
}.

(** The object literal [config.steam_openid.params], member by member
    (it names [openid.mode] twice). *)
Definition steam_openid_params_literal : list (string * string) :=
  [ ("openid.mode",       "checkid_setup");
    ("openid.mode",       "checkid_setup");
    ("openid.ns",         "http://specs.openid.net/auth/2.0");
    ("openid.identity",   "http://specs.openid.net/auth/2.0/identifier_select");
    ("openid.claimed_id", "http://specs.openid.net/auth/2.0/identifier_select");
    ("openid.return_to",  "http://localhost:8080/auth/steam");
    ("openid.realm",      "http://localhost:8080") ].

Definition object_literal (members : list (string * string)) : Obj.t :=
  fold_left (fun o kv => Obj.define o (fst kv) (snd kv)) members [].

(** [new URL("https://steamcommunity.com/openid/login")]: no query, no
    fragment. *)
Definition steam_openid_login : Url.t :=
  Url.mk "https://steamcommunity.com/openid/login" None [] None.

Definition config : Config :=
  mk_config "0.0.0.0" 8080 steam_openid_login
            (object_literal steam_openid_params_literal).

Section Handler.

(** The [searchParams] of [new URL(target, "http://localhost")], as the
    list of name-value pairs in the order of the query. *)
Variable URL_searchParams : string -> list (string * string).

(** [await undici.request(url, { method })]: the provider's answer, or
    the exception of a failed exchange. *)
Variable undici_request : Url.t -> string -> throws ClientResponse.

(** [for (const [k, v] of entries) u.searchParams.append(k, v)] *)
Definition append_all (u : Url.t) (entries : list (string * string)) : Url.t :=
  fold_left (fun u kv => Url.append u (fst kv) (snd kv)) entries u.

(** The object [params_out] after the loop over [params_in]. *)
Definition build_params_out (params_in : list (string * string)) : Obj.t :=
  fold_left
    (fun params_out kv =>
       if Js.seq (fst kv) "openid.mode" then params_out
       else Obj.set params_out (fst kv) (snd kv))
    params_in
    (object_literal [("openid.mode", "check_authentication")]).

(** The URL [url_auth_check_mut] handed to [undici.request]. *)
Definition revalidation_url (config : Config) (params_in : list (string * string))
  : Url.t :=
  let params_out := build_params_out params_in in
  let url_auth_check_mut := Url.new (steam_openid_url config) in
  let url_auth_check_mut := Url.set_search_empty url_auth_check_mut in
  append_all url_auth_check_mut (Obj.entries params_out).

Definition handle (config : Config) (i : IncomingMessage) (o : ServerResponse)
  : Outcome :=
  let log := [LogRequest (method i) (url i)] in
  if Js.seq (url i) "/" then
    let url_redir_mut := Url.new (steam_openid_url config) in
    let url_redir_mut := Url.set_search_empty url_redir_mut in
    let url_redir_mut :=
      append_all url_redir_mut (Obj.entries (steam_openid_params config)) in
    let o := setHeader o "Location" (Url.toString url_redir_mut) in
    let o := set_statusCode o 303 in
    let o := end_ o in
    mk_outcome o [] log (ret tt)
  else if Js.startsWith (url i) "/auth/steam" then
    let params_in := URL_searchParams (url i) in
    match parse_oid_claimed_id_steam (Url.get params_in "openid.claimed_id") with
    | inl e => mk_outcome o [] log (throw e)
    | inr claimed_steam_id =>
        let url_auth_check_mut := revalidation_url config params_in in
        let sent := [(url_auth_check_mut, "POST")] in
        match undici_request url_auth_check_mut "POST" with
        | inl e => mk_outcome o sent log (throw e)
        | inr response =>
            if negb (res_statusCode response =? 200) then
              let o := set_statusCode o 500 in
              let o := end_ o in
              mk_outcome o sent log (ret tt)
            else
              match parse_oid_check_authentication (res_body response) with
              | inl err_parse =>
                  let log := (log ++ [LogParseFailure (res_statusCode response)
                                        (res_body response) err_parse])%list in
                  let o := set_statusCode o 500 in
                  let o := end_ o in
                  mk_outcome o sent log (ret tt)
              | inr parsed =>
                  let is_valid := is_valid parsed in
                  let o := set_statusCode o (if is_valid then 200 else 401) in
                  let log := (log ++ [LogAuthenticated claimed_steam_id is_valid])%list in
                  let o := end_ o in
                  mk_outcome o sent log (ret tt)
              end
        end
    end
  else if Js.seq (url i) "/favicon.ico" then
    let o := set_statusCode o 204 in
    let o := end_ o in
    mk_outcome o [] log (ret tt)
  else
    let o := set_statusCode o 404 in
    let o := end_ o in
    mk_outcome o [] log (ret tt).

End Handler.

(** [http.createServer((i, o) => handle(config, i, o))]: each request is
    handled with the configuration of [main] and a response of its own. *)
Definition serve (URL_searchParams : string -> list (string * string))
           (undici_request : Url.t -> string -> throws ClientResponse)
           (i : IncomingMessage) : Outcome :=
  handle URL_searchParams undici_request config i fresh_response.

(** The fields of the re-validation request: the [searchParams] of the
    URL it is sent to. *)
Definition revalidation_fields (params_in : list (string * string))
  : list (string * string) :=
  Url.searchParams (revalidation_url config params_in).

(* ================================================================== *)
(** * Sample platform services for concrete runs *)

(** The text before the first [c], and the text after it when there is
    one. *)
Fixpoint cut (c : ascii) (s : string) : string * option string :=
  match s with
  | EmptyString => (EmptyString, None)
  | String a s' =>
      if Ascii.eqb a c then (EmptyString, Some s')
      else let (l, r) := cut c s' in (String a l, r)
  end.

(** The query parser on a request target that carries no fragment, no
    percent escape and no plus sign: the text after the first [?] is cut
    at each [&], empty pieces are dropped, and each piece is cut at its
    first [=]. *)
Definition plain_searchParams (target : string) : list (string * string) :=
  match snd (cut "?"%char target) with
  | None => []
  | Some q =>
      map (fun piece =>
             let (k, v) := cut "="%char piece in
             (k, match v with None => EmptyString | Some v => v end))
          (filter Js.truthy (Js.split "&"%char q))
  end.

(** A provider that answers every request with the same status and body. *)
Definition provider_answers (status : Z) (text : string)
  : Url.t -> string -> throws ClientResponse :=
  fun _ _ => ret (mk_client_response status text).

(* ================================================================== *)
(** * Vocabulary of the specification *)

(** The code unit [c] occurs in [s]. *)
Fixpoint occurs (c : ascii) (s : string) : bool :=
  match s with
  | EmptyString => false
  | String a s' => Ascii.eqb a c || occurs c s'
  end.

(** A line: a string without line feed. *)
Definition is_line (s : string) : Prop := occurs LF s = false.

(** The text whose line-feed-separated lines are [ls]. *)
Definition unlines (ls : list string) : string := String.concat lf ls.

(** The literals [true] and [false]. *)
Definition literal (b : bool) : string := if b then "true" else "false".

(** The line [ns:v] and the line [is_valid:b]. *)
Definition ns_line (v : string) : string := "ns:" ++ v.
Definition is_valid_line (b : bool) : string := "is_valid:" ++ literal b.

(** A line the parser recognizes: empty, an [ns] line, or an [is_valid]
    line with a literal value. *)
Definition recognized (l : string) : Prop :=
  l = EmptyString \/ (exists v, l = ns_line v) \/ (exists b, l = is_valid_line b).

(** What an outcome of the parser says about [is_valid], the [ns] value
    left out. *)
Definition verdict (m : throws check_authentication) : throws bool :=
  match m with
  | inl e => inl e
  | inr r => inr (is_valid r)
  end.

(** Two states of the object [result] that differ at most in the value
    (not the presence) of [ns]. *)
Definition same_but_ns (r r' : partial_result) : Prop :=
  p_is_valid r = p_is_valid r' /\ (p_ns r = None <-> p_ns r' = None).

(** The fields named [openid.mode], and the others. *)
Definition is_mode (kv : string * string) : bool := String.eqb (fst kv) "openid.mode".
Definition mode_fields (l : list (string * string)) : list (string * string) :=
  filter is_mode l.
Definition non_mode_fields (l : list (string * string)) : list (string * string) :=
  filter (fun kv => negb (is_mode kv)) l.

(** The one field [openid.mode=check_authentication]. *)
Definition check_authentication_mode : string * string :=
  ("openid.mode", "check_authentication").

(** The claim on one request: each re-validation request that [handle]
    sends holds exactly one [openid.mode] field, [check_authentication],
    and every received field other than [openid.mode], unchanged and in
    the received order. *)
Definition forwards_unchanged
           (URL_searchParams : string -> list (string * string))
           (undici_request : Url.t -> string -> throws ClientResponse)
           (cfg : Config) (i : IncomingMessage) (o : ServerResponse) : Prop :=
  forall sent m,
    In (sent, m) (requests (handle URL_searchParams undici_request cfg i o)) ->
    mode_fields (Url.searchParams sent) = [check_authentication_mode]
    /\ non_mode_fields (Url.searchParams sent)
       = non_mode_fields (URL_searchParams (url i)).

(** The address of the provider's login page with the parameters of
    [config.steam_openid.params] as its query. *)
Definition provider_login_location : string :=
  "https://steamcommunity.com/openid/login"
  ++ "?openid.mode=checkid_setup"
  ++ "&openid.ns=http%3A%2F%2Fspecs.openid.net%2Fauth%2F2.0"
  ++ "&openid.identity=http%3A%2F%2Fspecs.openid.net%2Fauth%2F2.0%2Fidentifier_select"
  ++ "&openid.claimed_id=http%3A%2F%2Fspecs.openid.net%2Fauth%2F2.0%2Fidentifier_select"
  ++ "&openid.return_to=http%3A%2F%2Flocalhost%3A8080%2Fauth%2Fsteam"
  ++ "&openid.realm=http%3A%2F%2Flocalhost%3A8080".


(** No string occurs twice in [l]. *)
Fixpoint distinct (l : list string) : bool :=
  match l with
  | [] => true
  | k :: rest => negb (existsb (String.eqb k) rest) && distinct rest
  end.

(** The fields with array-index keys come before all others, in
    ascending order of the index: every field with an array-index key is
    followed only by fields that have no smaller index, and a field with
    another key is followed by no field with an array-index key. *)
Fixpoint indexes_first (fields : list (string * string)) : bool :=
  match fields with
  | [] => true
  | kv :: rest =>
      if Obj.is_index kv
      then forallb (fun kv' => negb (Obj.is_index kv')
                               || (Obj.index_of kv <=? Obj.index_of kv')%N) rest
           && indexes_first rest
      else forallb (fun kv' => negb (Obj.is_index kv')) rest
  end.

(** Fields an object gives back as it received them: no key twice, no
    key [__proto__], and the array-index keys first and ascending. *)
Definition kept_as_received (fields : list (string * string)) : bool :=
  distinct (map fst fields)
  && forallb (fun kv => negb (String.eqb (fst kv) "__proto__")) fields
  && indexes_first fields.

(* ================================================================== *)
(** * Concrete runs *)

(** The two assertions the module runs when it is loaded. *)
Example parse_oid_check_authentication_selftest :
  parse_oid_check_authentication
    ("ns:http://specs.openid.net/auth/2.0" ++ lf ++ "is_valid:false" ++ lf)
  = inr (mk_check "http://specs.openid.net/auth/2.0" false).
Proof. reflexivity. Qed.

Example parse_oid_claimed_id_steam_selftest :
  parse_oid_claimed_id_steam
    (Some "https://steamcommunity.com/openid/id/00000000000000000")
  = inr "00000000000000000".
Proof. reflexivity. Qed.

(* ================================================================== *)
(** * Strings *)

Lemma length_app (s t : string) :
  String.length (s ++ t) = (String.length s + String.length t)%nat.
Proof. induction s as [|a s IH]; simpl; [reflexivity | now rewrite IH]. Qed.

Lemma js_length_app (s t : string) : Js.length (s ++ t) = Js.length s + Js.length t.
Proof. unfold Js.length. rewrite length_app. lia. Qed.

Lemma js_length_nonneg (s : string) : 0 <= Js.length s.
Proof. unfold Js.length. lia. Qed.

Lemma app_assoc_string (s t u : string) : ((s ++ t) ++ u = s ++ (t ++ u))%string.
Proof. induction s as [|a s IH]; simpl; [reflexivity | now rewrite IH]. Qed.


Lemma prefix_app (p s : string) : String.prefix p (p ++ s) = true.
Proof.
  induction p as [|a p IH]; simpl.
  - now destruct s.
  - destruct (ascii_dec a a) as [_|n]; [exact IH | now elim n].
Qed.

Lemma prefix_inv (p s : string) :
  String.prefix p s = true -> exists v, s = (p ++ v)%string.
Proof.
  revert s. induction p as [|a p IH]; intros s H.
  - now exists s.
  - destruct s as [|b s]; simpl in H; [discriminate|].
    destruct (ascii_dec a b) as [->|_]; [|discriminate].
    destruct (IH _ H) as [v ->]. now exists v.
Qed.

Lemma substring_all (s : string) : String.substring 0 (String.length s) s = s.
Proof. induction s as [|a s IH]; simpl; [reflexivity | now rewrite IH]. Qed.

Lemma substring_skip (p v : string) :
  String.substring (String.length p) (String.length v) (p ++ v) = v.
Proof.
  induction p as [|a p IH]; simpl.
  - apply substring_all.
  - exact IH.
Qed.

(** [(p ++ v).substring(p.length, (p ++ v).length)] is [v]. *)
Lemma js_substring_suffix (p v : string) (n : Z) :
  n = Js.length p ->
  Js.substring (p ++ v) n (Js.length (p ++ v)) = v.
Proof.
  intros ->. unfold Js.substring, Js.clamp. rewrite js_length_app.
  pose proof (js_length_nonneg p) as Hp. pose proof (js_length_nonneg v) as Hv.
  replace (Z.min _ _) with (Js.length p) by lia.
  replace (Z.max _ _ - Js.length p) with (Js.length v) by lia.
  unfold Js.length. rewrite !Nat2Z.id. apply substring_skip.
Qed.



Lemma occurs_app (c : ascii) (s t : string) :
  occurs c (s ++ t) = occurs c s || occurs c t.
Proof.
  induction s as [|a s IH]; simpl; [reflexivity|].
  rewrite IH. now rewrite orb_assoc.
Qed.

(* ================================================================== *)
(** * [split] and the lines of a text *)

Lemma split_not_nil (c : ascii) (s : string) : Js.split c s <> [].
Proof.
  induction s as [|a s IH]; simpl; [discriminate|].
  destruct (Ascii.eqb a c); [discriminate|].
  destruct (Js.split c s); [contradiction | discriminate].
Qed.

Lemma split_no_sep (c : ascii) (s : string) :
  occurs c s = false -> Js.split c s = [s].
Proof.
  induction s as [|a s IH]; simpl; intros H; [reflexivity|].
  apply orb_false_iff in H as [Ha Hs].
  rewrite Ha, (IH Hs). reflexivity.
Qed.

Lemma split_app_sep (c : ascii) (s t : string) :
  Js.split c (s ++ String c t) = (Js.split c s ++ Js.split c t)%list.
Proof.
  induction s as [|a s IH]; simpl.
  - now rewrite Ascii.eqb_refl.
  - destruct (Ascii.eqb a c); [now rewrite IH|].
    rewrite IH. pose proof (split_not_nil c s) as Hn.
    destruct (Js.split c s); [contradiction | reflexivity].
Qed.

Lemma split_pieces_no_sep (c : ascii) (s : string) :
  Forall (fun piece => occurs c piece = false) (Js.split c s).
Proof.
  induction s as [|a s IH]; simpl.
  - now constructor.
  - destruct (Ascii.eqb a c) eqn:E; [now constructor|].
    pose proof (split_not_nil c s) as Hn.
    destruct (Js.split c s) as [|piece pieces]; [contradiction|].
    inversion IH; subst. constructor; [simpl; now rewrite E | assumption].
Qed.

(** Every text is the text of its lines. *)
Lemma unlines_split (s : string) : unlines (Js.split LF s) = s.
Proof.
  unfold unlines. induction s as [|a s IH]; simpl; [reflexivity|].
  pose proof (split_not_nil LF s) as Hn.
  destruct (Ascii.eqb a LF) eqn:E.
  - apply Ascii.eqb_eq in E. subst a.
    destruct (Js.split LF s) as [|piece pieces]; [contradiction|].
    simpl in *. now rewrite IH.
  - destruct (Js.split LF s) as [|piece pieces]; [contradiction|].
    destruct pieces as [|q qs]; simpl in *; now rewrite <- IH.
Qed.

(** The lines of the text of [ls] are [ls]. *)
Lemma split_unlines (ls : list string) :
  Forall is_line ls -> ls <> [] -> Js.split LF (unlines ls) = ls.
Proof.
  unfold unlines. induction 1 as [|l ls Hl Hls IH]; intros Hne; [contradiction|].
  destruct ls as [|l' ls'].
  - simpl. now apply split_no_sep.
  - change (String.concat lf (l :: l' :: ls'))
      with (l ++ String LF (String.concat lf (l' :: ls')))%string.
    rewrite split_app_sep, (split_no_sep _ _ Hl), IH by discriminate. reflexivity.
Qed.

Lemma entries_of_app (s t : string) :
  entries_of (s ++ lf ++ t) = (entries_of s ++ entries_of t)%list.
Proof.
  unfold entries_of, lf. simpl. rewrite split_app_sep. apply filter_app.
Qed.

Lemma entries_of_line (l : string) :
  is_line l -> entries_of l = filter Js.truthy [l].
Proof. intros H. unfold entries_of. now rewrite (split_no_sep _ _ H). Qed.

(** The entries of a text are its non-empty lines. *)
Lemma entries_of_unlines (ls : list string) :
  Forall is_line ls -> entries_of (unlines ls) = filter Js.truthy ls.
Proof.
  unfold unlines. induction 1 as [|l ls Hl Hls IH]; [reflexivity|].
  destruct ls as [|l' ls'].
  - simpl String.concat. now apply entries_of_line.
  - change (String.concat lf (l :: l' :: ls'))
      with (l ++ lf ++ String.concat lf (l' :: ls'))%string.
    rewrite entries_of_app, IH, (entries_of_line _ Hl).
    rewrite <- filter_app. reflexivity.
Qed.

Lemma Forall_filter_impl {A : Type} (P Q : A -> Prop) (f : A -> bool) (l : list A) :
  (forall x, P x -> Q x) -> Forall P l -> Forall Q (filter f l).
Proof.
  intros HPQ H. apply Forall_forall. intros x Hx.
  apply filter_In in Hx as [Hx _]. rewrite Forall_forall in H. now apply HPQ, H.
Qed.

(* ================================================================== *)
(** * The loop of the response parser *)

Lemma is_line_ns_line (v : string) : is_line v -> is_line (ns_line v).
Proof. unfold is_line, ns_line. intros H. rewrite occurs_app, H. reflexivity. Qed.

Lemma is_line_is_valid_line (b : bool) : is_line (is_valid_line b).
Proof. now destruct b. Qed.

Lemma not_ns_form (l : string) :
  (forall v, l <> ns_line v) -> Js.startsWith l "ns:" = false.
Proof.
  intros H. unfold Js.startsWith. destruct (String.prefix "ns:" l) eqn:E; [|reflexivity].
  destruct (prefix_inv _ _ E) as [v ->]. now elim (H v).
Qed.

Lemma not_is_valid_form (l : string) :
  (forall v, l <> ("is_valid:" ++ v)%string) -> Js.startsWith l "is_valid:" = false.
Proof.
  intros H. unfold Js.startsWith.
  destruct (String.prefix "is_valid:" l) eqn:E; [|reflexivity].
  destruct (prefix_inv _ _ E) as [v ->]. now elim (H v).
Qed.

Lemma parse_entry_ns (r : partial_result) (v : string) :
  parse_entry r (ns_line v) = inr (mk_partial (Some v) (p_is_valid r)).
Proof.
  unfold parse_entry, ns_line, Js.startsWith. rewrite prefix_app.
  now rewrite js_substring_suffix.
Qed.

Lemma parse_entry_is_valid_value (r : partial_result) (v : string) :
  parse_entry r ("is_valid:" ++ v) =
  if Js.seq v "true" then inr (mk_partial (p_ns r) (Some true))
  else if Js.seq v "false" then inr (mk_partial (p_ns r) (Some false))
  else inl (Error "Could not parse value 'is_valid' as boolean").
Proof.
  unfold parse_entry, Js.startsWith.
  change (String.prefix "ns:" ("is_valid:" ++ v)) with false.
  rewrite prefix_app. cbv iota. rewrite js_substring_suffix by reflexivity.
  reflexivity.
Qed.

Lemma parse_entry_is_valid (r : partial_result) (b : bool) :
  parse_entry r (is_valid_line b) = inr (mk_partial (p_ns r) (Some b)).
Proof. unfold is_valid_line. rewrite parse_entry_is_valid_value. now destruct b. Qed.

Lemma parse_entry_bad_value (r : partial_result) (v : string) :
  v <> "true" -> v <> "false" -> failed (parse_entry r ("is_valid:" ++ v)).
Proof.
  intros Ht Hf. rewrite parse_entry_is_valid_value. unfold Js.seq.
  apply String.eqb_neq in Ht, Hf. rewrite Ht, Hf. now eexists.
Qed.

Lemma parse_entry_unknown (r : partial_result) (entry : string) :
  Js.startsWith entry "ns:" = false ->
  Js.startsWith entry "is_valid:" = false ->
  failed (parse_entry r entry).
Proof. intros H1 H2. unfold parse_entry. rewrite H1, H2. now eexists. Qed.

Lemma parse_entries_app (es es' : list string) (r : partial_result) :
  parse_entries (es ++ es') r = (r' <- parse_entries es r ;; parse_entries es' r').
Proof.
  revert r. induction es as [|e es IH]; intros r; simpl; [reflexivity|].
  destruct (parse_entry r e) as [x|r1]; simpl; [reflexivity | apply IH].
Qed.

Lemma parse_entries_app_inv (es es' : list string) (e : string) (r r' : partial_result) :
  parse_entries (es ++ e :: es') r = inr r' ->
  exists r1 r2, parse_entries es r = inr r1 /\ parse_entry r1 e = inr r2
                /\ parse_entries es' r2 = inr r'.
Proof.
  rewrite parse_entries_app. destruct (parse_entries es r) as [x|r1]; simpl; [discriminate|].
  destruct (parse_entry r1 e) as [x|r2] eqn:E; simpl; [discriminate|].
  intros H. now exists r1, r2.
Qed.

(** One entry that the loop body rejects in every state makes the whole
    loop fail. *)
Lemma parse_entries_rejects (es : list string) (e : string) (r : partial_result) :
  In e es -> (forall r0, failed (parse_entry r0 e)) -> failed (parse_entries es r).
Proof.
  intros Hin Hbad. apply in_split in Hin as (pre & post & ->).
  rewrite parse_entries_app. destruct (parse_entries pre r) as [x|r1]; simpl.
  - now exists x.
  - destruct (Hbad r1) as [x Hx]. rewrite Hx. now exists x.
Qed.

Lemma parse_entries_keep_ns (es : list string) (r r' : partial_result) :
  Forall (fun e => Js.startsWith e "ns:" = false) es ->
  parse_entries es r = inr r' -> p_ns r' = p_ns r.
Proof.
  intros H. revert r. induction H as [|e es He _ IH]; intros r; simpl.
  - now intros [= <-].
  - destruct (parse_entry r e) as [x|r1] eqn:E; simpl; [discriminate|].
    intros Hr. rewrite (IH _ Hr). unfold parse_entry in E. rewrite He in E.
    destruct (Js.startsWith e "is_valid:"); [|discriminate].
    destruct (Js.seq _ "true"); [now inversion E|].
    destruct (Js.seq _ "false"); [now inversion E | discriminate].
Qed.

Lemma parse_entries_keep_is_valid (es : list string) (r r' : partial_result) :
  Forall (fun e => Js.startsWith e "is_valid:" = false) es ->
  parse_entries es r = inr r' -> p_is_valid r' = p_is_valid r.
Proof.
  intros H. revert r. induction H as [|e es He _ IH]; intros r; simpl.
  - now intros [= <-].
  - destruct (parse_entry r e) as [x|r1] eqn:E; simpl; [discriminate|].
    intros Hr. rewrite (IH _ Hr). unfold parse_entry in E. rewrite He in E.
    destruct (Js.startsWith e "ns:"); [now inversion E | discriminate].
Qed.

(** The loop runs to its end on recognized entries. *)
Lemma parse_entries_recognized (es : list string) (r : partial_result) :
  Forall (fun e => (exists v, e = ns_line v) \/ (exists b, e = is_valid_line b)) es ->
  exists r', parse_entries es r = inr r'.
Proof.
  intros H. revert r. induction H as [|e es He _ IH]; intros r; simpl.
  - now exists r.
  - destruct He as [[v ->] | [b ->]].
    + rewrite parse_entry_ns. apply IH.
    + rewrite parse_entry_is_valid. apply IH.
Qed.

(** After the loop, [ns] holds the value of the last [ns] entry. *)
Lemma parse_entries_last_ns (pre post : list string) (n : string) (r r' : partial_result) :
  Forall (fun e => Js.startsWith e "ns:" = false) post ->
  parse_entries (pre ++ ns_line n :: post) r = inr r' -> p_ns r' = Some n.
Proof.
  intros Hpost H. apply parse_entries_app_inv in H as (r1 & r2 & _ & H2 & H3).
  rewrite (parse_entries_keep_ns _ _ _ Hpost H3).
  rewrite parse_entry_ns in H2. now inversion H2.
Qed.

(** After the loop, [is_valid] holds the value of the last [is_valid]
    entry. *)
Lemma parse_entries_last_is_valid (pre post : list string) (b : bool)
      (r r' : partial_result) :
  Forall (fun e => Js.startsWith e "is_valid:" = false) post ->
  parse_entries (pre ++ is_valid_line b :: post) r = inr r' -> p_is_valid r' = Some b.
Proof.
  intros Hpost H. apply parse_entries_app_inv in H as (r1 & r2 & _ & H2 & H3).
  rewrite (parse_entries_keep_is_valid _ _ _ Hpost H3).
  rewrite parse_entry_is_valid in H2. now inversion H2.
Qed.

Lemma parse_entry_same_but_ns (e : string) (r r' : partial_result) :
  same_but_ns r r' ->
  match parse_entry r e, parse_entry r' e with
  | inl x, inl x' => x = x'
  | inr a, inr a' => same_but_ns a a'
  | _, _ => False
  end.
Proof.
  intros [Hv Hn]. unfold parse_entry.
  destruct (Js.startsWith e "ns:").
  - simpl. split; simpl; [assumption | split; discriminate].
  - destruct (Js.startsWith e "is_valid:"); [|reflexivity].
    destruct (Js.seq _ "true"); [now split|].
    destruct (Js.seq _ "false"); [now split | reflexivity].
Qed.

Lemma parse_entries_same_but_ns (es : list string) (r r' : partial_result) :
  same_but_ns r r' ->
  match parse_entries es r, parse_entries es r' with
  | inl x, inl x' => x = x'
  | inr a, inr a' => same_but_ns a a'
  | _, _ => False
  end.
Proof.
  revert r r'. induction es as [|e es IH]; intros r r' H; simpl; [assumption|].
  pose proof (parse_entry_same_but_ns e _ _ H) as He.
  destruct (parse_entry r e) as [x|a], (parse_entry r' e) as [x'|a'];
    simpl; try contradiction; [assumption | now apply IH].
Qed.

Lemma check_complete_same_but_ns (r r' : partial_result) :
  same_but_ns r r' -> verdict (check_complete r) = verdict (check_complete r').
Proof.
  intros [Hv Hn]. unfold check_complete. rewrite <- Hv.
  destruct (p_ns r) as [n|], (p_ns r') as [n'|]; try reflexivity.
  - now destruct (p_is_valid r).
  - destruct Hn as [_ Hn]. now specialize (Hn eq_refl).
  - destruct Hn as [Hn _]. now specialize (Hn eq_refl).
Qed.

Lemma check_complete_missing_ns (r : partial_result) :
  p_ns r = None -> failed (check_complete r).
Proof. intros H. unfold check_complete. rewrite H. now eexists. Qed.

Lemma check_complete_missing_is_valid (r : partial_result) :
  p_is_valid r = None -> failed (check_complete r).
Proof.
  intros H. unfold check_complete. rewrite H. destruct (p_ns r); now eexists.
Qed.

Lemma parse_failed_of_entries (text : string) :
  failed (parse_entries (entries_of text) empty_result) ->
  failed (parse_oid_check_authentication text).
Proof.
  intros [x Hx]. unfold parse_oid_check_authentication. rewrite Hx. now exists x.
Qed.

(* ================================================================== *)
(** * Properties of the response parser *)

(** C3.  A text of lines whose non-empty lines are exactly one [ns] line
    and one [is_valid] line with a literal value, in either order, is
    parsed, and the payload holds everything after [ns:] (colons
    included) and the boolean of the literal; both orders give the same
    payload. *)
Theorem parse_two_entries (ls : list string) (v : string) (b : bool) :
  Forall is_line ls ->
  filter Js.truthy ls = [ns_line v; is_valid_line b]
  \/ filter Js.truthy ls = [is_valid_line b; ns_line v] ->
  parse_oid_check_authentication (unlines ls) = inr (mk_check v b).
Proof.
  intros Hls H. unfold parse_oid_check_authentication.
  rewrite (entries_of_unlines _ Hls).
  destruct H as [-> | ->]; simpl parse_entries.
  - rewrite parse_entry_ns. simpl. now rewrite parse_entry_is_valid.
  - rewrite parse_entry_is_valid. simpl. now rewrite parse_entry_ns.
Qed.

Lemma parse_two_entries_witness :
  parse_oid_check_authentication
    (unlines ["ns:http://specs.openid.net/auth/2.0"; "is_valid:true"; ""])
  = inr (mk_check "http://specs.openid.net/auth/2.0" true)
  /\ parse_oid_check_authentication
       (unlines [""; "is_valid:true"; ""; "ns:http://specs.openid.net/auth/2.0"])
     = inr (mk_check "http://specs.openid.net/auth/2.0" true).
Proof.
  split.
  - apply (parse_two_entries
             ["ns:http://specs.openid.net/auth/2.0"; "is_valid:true"; ""]
             "http://specs.openid.net/auth/2.0" true).
    + repeat constructor.
    + left. reflexivity.
  - apply (parse_two_entries
             [""; "is_valid:true"; ""; "ns:http://specs.openid.net/auth/2.0"]
             "http://specs.openid.net/auth/2.0" true).
    + repeat constructor.
    + right. reflexivity.
Defined.

(** C4.  The parser raises an exception, and so returns no payload, on
    the empty text, on a text with a non-empty line that is neither of
    the form [ns:...] nor of the form [is_valid:...], on a text with an
    [is_valid] line whose value is not the literal [true] or [false], and
    on a text without an [ns] line or without an [is_valid] line. *)
Theorem parse_rejects :
  failed (parse_oid_check_authentication "")
  /\ (forall ls line,
         Forall is_line ls -> In line ls -> line <> "" ->
         (forall v, line <> ns_line v) ->
         (forall v, line <> "is_valid:" ++ v) ->
         failed (parse_oid_check_authentication (unlines ls)))
  /\ (forall ls v,
         Forall is_line ls -> In ("is_valid:" ++ v) ls ->
         v <> "true" -> v <> "false" ->
         failed (parse_oid_check_authentication (unlines ls)))
  /\ (forall ls,
         Forall is_line ls ->
         Forall (fun l => forall v, l <> ns_line v) ls
         \/ Forall (fun l => forall v, l <> "is_valid:" ++ v) ls ->
         failed (parse_oid_check_authentication (unlines ls))).
Proof.
  split; [|split; [|split]].
  - now eexists.
  - intros ls line Hls Hin Hne Hns Hv. apply parse_failed_of_entries.
    rewrite (entries_of_unlines _ Hls).
    apply parse_entries_rejects with (e := line).
    + apply filter_In. split; [assumption|]. now destruct line.
    + intros r0. apply parse_entry_unknown;
        [now apply not_ns_form | now apply not_is_valid_form].
  - intros ls v Hls Hin Ht Hf. apply parse_failed_of_entries.
    rewrite (entries_of_unlines _ Hls).
    apply parse_entries_rejects with (e := ("is_valid:" ++ v)%string).
    + apply filter_In. split; [assumption | reflexivity].
    + intros r0. now apply parse_entry_bad_value.
  - intros ls Hls H. unfold parse_oid_check_authentication.
    rewrite (entries_of_unlines _ Hls).
    destruct (parse_entries (filter Js.truthy ls) empty_result) as [x|r] eqn:E;
      simpl; [now exists x|].
    destruct H as [H | H].
    + apply check_complete_missing_ns.
      rewrite (parse_entries_keep_ns (filter Js.truthy ls) empty_result r);
        [reflexivity | | assumption].
      revert H. apply Forall_filter_impl, not_ns_form.
    + apply check_complete_missing_is_valid.
      rewrite (parse_entries_keep_is_valid (filter Js.truthy ls) empty_result r);
        [reflexivity | | assumption].
      revert H. apply Forall_filter_impl, not_is_valid_form.
Qed.

Lemma parse_rejects_witness :
  failed (parse_oid_check_authentication "")
  /\ failed (parse_oid_check_authentication
               (unlines ["ns:x"; "is_valid:true"; "mode:id_res"]))
  /\ failed (parse_oid_check_authentication (unlines ["ns:x"; "is_valid:True"]))
  /\ failed (parse_oid_check_authentication (unlines ["ns:x"; ""]))
  /\ failed (parse_oid_check_authentication (unlines ["is_valid:true"; ""])).
Proof.
  destruct parse_rejects as (H0 & Hunknown & Hvalue & Hmissing).
  split; [exact H0|]. split; [|split; [|split]].
  - apply (Hunknown ["ns:x"; "is_valid:true"; "mode:id_res"] "mode:id_res").
    + repeat constructor.
    + simpl. tauto.
    + discriminate.
    + intros v. discriminate.
    + intros v. discriminate.
  - apply (Hvalue ["ns:x"; "is_valid:True"] "True").
    + repeat constructor.
    + simpl. tauto.
    + discriminate.
    + discriminate.
  - apply (Hmissing ["ns:x"; ""]).
    + repeat constructor.
    + right. repeat constructor; intros v; discriminate.
  - apply (Hmissing ["is_valid:true"; ""]).
    + repeat constructor.
    + left. repeat constructor; intros v; discriminate.
Defined.

(** C9.  A text of recognized lines that holds at least one [ns] line
    and at least one [is_valid] line is parsed however often either key
    occurs, and the payload holds, for each key, the value of its last
    line. *)
Theorem parse_duplicates_last_wins
        (ls pre_n post_n pre_v post_v : list string) (n : string) (b : bool) :
  Forall is_line ls ->
  Forall recognized ls ->
  ls = (pre_n ++ ns_line n :: post_n)%list ->
  Forall (fun l => forall v, l <> ns_line v) post_n ->
  ls = (pre_v ++ is_valid_line b :: post_v)%list ->
  Forall (fun l => forall b', l <> is_valid_line b') post_v ->
  parse_oid_check_authentication (unlines ls) = inr (mk_check n b).
Proof.
  intros Hls Hrec Hn Hpost_n Hv Hpost_v.
  unfold parse_oid_check_authentication. rewrite (entries_of_unlines _ Hls).
  destruct (parse_entries_recognized (filter Js.truthy ls) empty_result) as [r Hr].
  { apply Forall_forall. intros e He. apply filter_In in He as [He Hne].
    rewrite Forall_forall in Hrec. destruct (Hrec e He) as [-> | H]; [discriminate | exact H]. }
  rewrite Hr. simpl.
  assert (p_ns r = Some n) as En.
  { rewrite Hn, filter_app in Hr. simpl in Hr.
    apply parse_entries_last_ns in Hr; [assumption|].
    revert Hpost_n. apply Forall_filter_impl, not_ns_form. }
  assert (p_is_valid r = Some b) as Ev.
  { rewrite Hv, filter_app in Hr.
    replace (filter Js.truthy (is_valid_line b :: post_v))
      with (is_valid_line b :: filter Js.truthy post_v) in Hr by now destruct b.
    apply parse_entries_last_is_valid in Hr; [assumption|].
    apply Forall_forall. intros e He. apply filter_In in He as [He _].
    assert (In e ls) as Hin by (rewrite Hv; apply in_or_app; right; now right).
    rewrite Forall_forall in Hrec, Hpost_v.
    destruct (Hrec e Hin) as [-> | [[v ->] | [b' ->]]]; try reflexivity.
    now elim (Hpost_v _ He b'). }
  unfold check_complete. now rewrite En, Ev.
Qed.

Lemma parse_duplicates_last_wins_witness :
  parse_oid_check_authentication
    (unlines ["ns:first"; "is_valid:false"; ""; "is_valid:true"; "ns:last"; ""])
  = inr (mk_check "last" true).
Proof.
  apply (parse_duplicates_last_wins
           ["ns:first"; "is_valid:false"; ""; "is_valid:true"; "ns:last"; ""]
           ["ns:first"; "is_valid:false"; ""; "is_valid:true"] [""]
           ["ns:first"; "is_valid:false"; ""] ["ns:last"; ""]
           "last" true).
  - repeat constructor.
  - constructor; [right; left; now exists "first"|].
    constructor; [right; right; now exists false|].
    constructor; [now left|].
    constructor; [right; right; now exists true|].
    constructor; [right; left; now exists "last"|].
    constructor; [now left | constructor].
  - reflexivity.
  - repeat constructor. intros v. discriminate.
  - reflexivity.
  - repeat constructor; intros [|]; discriminate.
Defined.

(** C10.  The value of an [ns] line is not inspected: whatever follows
    [ns:], the empty string included, is taken as it is, and replacing
    the value of an [ns] line anywhere in a text changes neither whether
    the parser raises (nor the exception) nor the [is_valid] it returns. *)
Theorem ns_value_unchecked :
  (forall v b,
      is_line v ->
      parse_oid_check_authentication (ns_line v ++ lf ++ is_valid_line b)
      = inr (mk_check v b))
  /\ (forall pre post v v',
         is_line v -> is_line v' ->
         verdict (parse_oid_check_authentication
                    (pre ++ lf ++ ns_line v ++ lf ++ post))
         = verdict (parse_oid_check_authentication
                      (pre ++ lf ++ ns_line v' ++ lf ++ post))).
Proof.
  split.
  - intros v b Hv.
    apply (parse_two_entries [ns_line v; is_valid_line b] v b).
    + repeat constructor; [now apply is_line_ns_line | apply is_line_is_valid_line].
    + left. now destruct b.
  - intros pre post v v' Hv Hv'. unfold parse_oid_check_authentication.
    rewrite !entries_of_app.
    rewrite (entries_of_line _ (is_line_ns_line _ Hv)).
    rewrite (entries_of_line _ (is_line_ns_line _ Hv')).
    simpl filter. rewrite !parse_entries_app.
    destruct (parse_entries (entries_of pre) empty_result) as [x|r]; simpl; [reflexivity|].
    rewrite !parse_entry_ns. simpl.
    assert (same_but_ns (mk_partial (Some v) (p_is_valid r))
                        (mk_partial (Some v') (p_is_valid r))) as Hsame
      by (split; simpl; [reflexivity | split; discriminate]).
    pose proof (parse_entries_same_but_ns (entries_of post) _ _ Hsame) as H.
    destruct (parse_entries (entries_of post) (mk_partial (Some v) (p_is_valid r)))
      as [x|a],
        (parse_entries (entries_of post) (mk_partial (Some v') (p_is_valid r)))
      as [x'|a']; simpl; try contradiction.
    + now f_equal.
    + now apply check_complete_same_but_ns.
Qed.

Lemma ns_value_unchecked_witness :
  parse_oid_check_authentication (ns_line "" ++ lf ++ is_valid_line true)
  = inr (mk_check "" true)
  /\ verdict (parse_oid_check_authentication
                ("is_valid:false" ++ lf ++ ns_line "http://specs.openid.net/auth/2.0"
                 ++ lf ++ ""))
     = verdict (parse_oid_check_authentication
                  ("is_valid:false" ++ lf ++ ns_line "unrelated" ++ lf ++ "")).
Proof.
  destruct ns_value_unchecked as [Haccept Hswap]. split.
  - apply (Haccept "" true). reflexivity.
  - apply (Hswap "is_valid:false" "" "http://specs.openid.net/auth/2.0" "unrelated");
      reflexivity.
Defined.

(* ================================================================== *)
(** * [lastIndexOf] *)

Lemma lastIndexOf_from_absent (c : ascii) (s : string) (i : Z) :
  occurs c s = false -> Js.lastIndexOf_from c s i = -1.
Proof.
  revert i. induction s as [|a s IH]; intros i H; simpl in *; [reflexivity|].
  apply orb_false_iff in H as [Ha Hs]. now rewrite (IH _ Hs), Ha.
Qed.

(** The index of a [c] that no other [c] follows. *)
Lemma lastIndexOf_from_last (c : ascii) (p t : string) (i : Z) :
  0 <= i -> occurs c t = false ->
  Js.lastIndexOf_from c (p ++ String c t) i = i + Js.length p.
Proof.
  intros Hi Ht. revert i Hi. induction p as [|a p IH]; intros i Hi; simpl.
  - rewrite (lastIndexOf_from_absent _ _ _ Ht), Ascii.eqb_refl. simpl.
    unfold Js.length. simpl. lia.
  - rewrite IH by lia. pose proof (js_length_nonneg p) as Hp.
    destruct (0 <=? i + 1 + Js.length p) eqn:E; [|lia].
    unfold Js.length in *. simpl String.length. lia.
Qed.

Lemma lastIndexOf_last (p t : string) :
  occurs SLASH t = false ->
  Js.lastIndexOf (p ++ "/" ++ t) SLASH = Js.length p.
Proof.
  intros Ht. unfold Js.lastIndexOf.
  change (p ++ "/" ++ t)%string with (p ++ String SLASH t)%string.
  now rewrite lastIndexOf_from_last.
Qed.

Lemma segment_after_slash (p t : string) :
  Js.substring (p ++ "/" ++ t) (Js.length p + 1) (Js.length (p ++ "/" ++ t)) = t.
Proof.
  replace (p ++ "/" ++ t)%string with ((p ++ "/") ++ t)%string
    by apply app_assoc_string.
  apply js_substring_suffix. now rewrite js_length_app.
Qed.

(* ================================================================== *)
(** * Properties of the identity extractor *)

(** C6.  On [prefix/id], where [prefix] is not empty and [id] is the
    17-code-unit segment after the last slash, the extractor returns
    [id] itself, whatever code units other than the slash it is made of. *)
Theorem extract_steam_id (prefix id : string) :
  prefix <> "" ->
  Js.length id = 17 ->
  occurs SLASH id = false ->
  parse_oid_claimed_id_steam (Some (prefix ++ "/" ++ id)) = inr id.
Proof.
  intros Hp Hlen Hid. unfold parse_oid_claimed_id_steam.
  rewrite (lastIndexOf_last _ _ Hid), segment_after_slash, Hlen.
  assert (0 < Js.length prefix) as Hpos
    by (destruct prefix; [contradiction | unfold Js.length; simpl; lia]).
  apply Z.ltb_lt in Hpos. now rewrite Hpos.
Qed.

Lemma extract_steam_id_witness :
  parse_oid_claimed_id_steam (Some ("https://steamcommunity.com/openid/id"
                                    ++ "/" ++ "7656119xxxxxxxxx!"))
  = inr "7656119xxxxxxxxx!".
Proof.
  apply (extract_steam_id "https://steamcommunity.com/openid/id" "7656119xxxxxxxxx!").
  - discriminate.
  - reflexivity.
  - reflexivity.
Defined.

(** A slash among the last 17 code units starts a shorter last segment,
    which is rejected. *)
Example extract_slash_in_segment :
  parse_oid_claimed_id_steam (Some ("https://steamcommunity.com" ++ "/" ++ "openid/id/1234567"))
  = inl (Error "Could not parse Steam ID from 'claimed_id'").
Proof. reflexivity. Qed.

(** C7.  The extractor raises an exception when the claimed identity is
    missing, when it holds no slash, when its only slash is its first
    code unit, and when the segment after its last slash is not 17 code
    units long. *)
Theorem extract_rejects :
  failed (parse_oid_claimed_id_steam None)
  /\ (forall s, occurs SLASH s = false ->
                failed (parse_oid_claimed_id_steam (Some s)))
  /\ (forall t, occurs SLASH t = false ->
                failed (parse_oid_claimed_id_steam (Some ("/" ++ t))))
  /\ (forall p t, occurs SLASH t = false -> Js.length t <> 17 ->
                  failed (parse_oid_claimed_id_steam (Some (p ++ "/" ++ t)))).
Proof.
  split; [|split; [|split]].
  - now eexists.
  - intros s Hs. unfold parse_oid_claimed_id_steam, Js.lastIndexOf.
    rewrite (lastIndexOf_from_absent _ _ _ Hs). now eexists.
  - intros t Ht. unfold parse_oid_claimed_id_steam.
    pose proof (lastIndexOf_last "" t Ht) as H0. simpl in H0.
    simpl append. rewrite H0. now eexists.
  - intros p t Ht Hlen. unfold parse_oid_claimed_id_steam.
    rewrite (lastIndexOf_last _ _ Ht), segment_after_slash.
    destruct (0 <? Js.length p); simpl; [|now eexists].
    apply Z.eqb_neq in Hlen. rewrite Hlen. now eexists.
Qed.

Lemma extract_rejects_witness :
  failed (parse_oid_claimed_id_steam None)
  /\ failed (parse_oid_claimed_id_steam (Some ""))
  /\ failed (parse_oid_claimed_id_steam (Some "00000000000000000"))
  /\ failed (parse_oid_claimed_id_steam (Some ("/" ++ "00000000000000000")))
  /\ failed (parse_oid_claimed_id_steam
               (Some ("https://steamcommunity.com/openid/id" ++ "/" ++ "1234"))).
Proof.
  destruct extract_rejects as (Hnull & Hnone & Hfirst & Hlen).
  split; [exact Hnull|]. split; [|split; [|split]].
  - apply (Hnone ""). reflexivity.
  - apply (Hnone "00000000000000000"). reflexivity.
  - apply (Hfirst "00000000000000000"). reflexivity.
  - apply (Hlen "https://steamcommunity.com/openid/id" "1234").
    + reflexivity.
    + discriminate.
Defined.

(* ================================================================== *)
(** * Objects and URLs *)

Lemma define_Forall (P : string * string -> Prop) (o : Obj.t) (k v : string) :
  Forall P o -> P (k, v) -> Forall P (Obj.define o k v).
Proof.
  intros Ho Hkv. induction Ho as [|[k' v'] o Hx Ho IH]; simpl.
  - now constructor.
  - destruct (String.eqb k' k) eqn:E.
    + apply String.eqb_eq in E. subst k'. now constructor.
    + now constructor.
Qed.

Lemma define_cons_other (o : Obj.t) (k' v' k v : string) :
  String.eqb k' k = false ->
  Obj.define ((k', v') :: o) k v = (k', v') :: Obj.define o k v.
Proof. intros H. simpl. now rewrite H. Qed.

Lemma define_fresh (o : Obj.t) (k v : string) :
  ~ In k (map fst o) -> Obj.define o k v = (o ++ [(k, v)])%list.
Proof.
  induction o as [|[k' v'] o IH]; simpl; intros H; [reflexivity|].
  destruct (String.eqb k' k) eqn:E.
  - apply String.eqb_eq in E. tauto.
  - rewrite IH; tauto.
Qed.

Lemma insert_by_index_Forall (P : string * string -> Prop) kv l :
  P kv -> Forall P l -> Forall P (Obj.insert_by_index kv l).
Proof.
  intros Hkv Hl. induction Hl as [|kv' l Hx Hl IH]; simpl.
  - now constructor.
  - destruct (Obj.index_of kv <=? Obj.index_of kv')%N; repeat constructor; assumption.
Qed.

Lemma sort_by_index_Forall (P : string * string -> Prop) l :
  Forall P l -> Forall P (Obj.sort_by_index l).
Proof.
  induction 1 as [|kv l Hx Hl IH]; simpl; [constructor|].
  now apply insert_by_index_Forall.
Qed.

Lemma filter_none {A : Type} (f : A -> bool) (l : list A) :
  Forall (fun x => f x = false) l -> filter f l = [].
Proof. induction 1 as [|x l Hx _ IH]; simpl; [reflexivity | now rewrite Hx]. Qed.

Lemma filter_all {A : Type} (f : A -> bool) (l : list A) :
  Forall (fun x => f x = true) l -> filter f l = l.
Proof. induction 1 as [|x l Hx _ IH]; simpl; [reflexivity | now rewrite Hx, IH]. Qed.

(** An object without array-index keys lists its entries in creation
    order. *)
Lemma entries_creation_order (o : Obj.t) :
  Forall (fun kv => Obj.is_index kv = false) o -> Obj.entries o = o.
Proof.
  intros H. unfold Obj.entries. rewrite (filter_none _ _ H). simpl.
  apply filter_all. revert H. apply Forall_impl. intros kv ->. reflexivity.
Qed.

Lemma searchParams_append_all (u : Url.t) (es : list (string * string)) :
  Url.searchParams (append_all u es) = (Url.searchParams u ++ es)%list.
Proof.
  revert u. induction es as [|[k v] es IH]; intros u.
  - simpl. now rewrite app_nil_r.
  - change (append_all u ((k, v) :: es)) with (append_all (Url.append u k v) es).
    rewrite IH. simpl. now rewrite <- app_assoc.
Qed.

Lemma query_append_all (u : Url.t) (es : list (string * string)) :
  es <> [] ->
  Url.query (append_all u es) =
  let q := Url.serialize (Url.searchParams u ++ es) in
  if String.eqb q "" then None else Some q.
Proof.
  revert u. induction es as [|[k v] es IH]; intros u H; [contradiction|].
  destruct es as [|e es'].
  - reflexivity.
  - change (append_all u ((k, v) :: e :: es'))
      with (append_all (Url.append u k v) (e :: es')).
    rewrite IH by discriminate. simpl Url.searchParams. now rewrite <- app_assoc.
Qed.

Lemma base_append_all (u : Url.t) (es : list (string * string)) :
  Url.base (append_all u es) = Url.base u
  /\ Url.fragment (append_all u es) = Url.fragment u.
Proof.
  revert u. induction es as [|[k v] es IH]; intros u; [now split|].
  change (append_all u ((k, v) :: es)) with (append_all (Url.append u k v) es).
  destruct (IH (Url.append u k v)) as [-> ->]. now split.
Qed.

Lemma serialize_not_empty (es : list (string * string)) :
  es <> [] -> String.eqb (Url.serialize es) "" = false.
Proof.
  destruct es as [|[k v] es]; intros H; [contradiction|].
  apply String.eqb_neq. simpl.
  destruct es; destruct (Url.urlencode k); discriminate.
Qed.

(** The address built for a redirect or a re-validation: the base of the
    configured URL, the entries as its query, and the fragment of the
    configured URL; the query the configured URL had is gone. *)
Lemma rebuilt_address (u : Url.t) (es : list (string * string)) :
  es <> [] ->
  Url.toString (append_all (Url.set_search_empty (Url.new u)) es)
  = Url.base u ++ "?" ++ Url.serialize es
    ++ match Url.fragment u with None => "" | Some f => "#" ++ f end.
Proof.
  intros Hes. unfold Url.toString.
  destruct (base_append_all (Url.set_search_empty (Url.new u)) es) as [-> ->].
  rewrite (query_append_all _ _ Hes). cbv zeta. simpl Url.searchParams.
  simpl app. rewrite (serialize_not_empty _ Hes). reflexivity.
Qed.

Lemma revalidation_fields_entries (params_in : list (string * string)) :
  revalidation_fields params_in = Obj.entries (build_params_out params_in).
Proof.
  unfold revalidation_fields, revalidation_url. now rewrite searchParams_append_all.
Qed.

Lemma get_last (hs : list (string * string)) (key value : string) :
  Forall (fun h => String.eqb (fst h) key = false) hs ->
  Url.get (hs ++ [(key, value)]) key = Some value.
Proof.
  induction 1 as [|[k v] hs Hx _ IH]; simpl.
  - now rewrite String.eqb_refl.
  - simpl in Hx. now rewrite Hx.
Qed.

Lemma getHeader_setHeader (o : ServerResponse) (name value : string) :
  getHeader (setHeader o name value) name = Some value.
Proof.
  unfold getHeader, setHeader. simpl. apply get_last.
  apply Forall_forall. intros h Hh. apply filter_In in Hh as [_ Hh].
  now apply negb_true_iff in Hh.
Qed.

(* ================================================================== *)
(** * The object [params_out] *)

(** [params_out] always starts with the [openid.mode] it was created
    with, and holds no other field of that name. *)
Lemma build_params_out_shape (params_in : list (string * string)) :
  exists rest,
    build_params_out params_in = check_authentication_mode :: rest
    /\ Forall (fun kv => is_mode kv = false) rest.
Proof.
  unfold build_params_out.
  change (object_literal [("openid.mode", "check_authentication")])
    with (check_authentication_mode :: []).
  generalize (@nil (string * string)) (Forall_nil (fun kv => is_mode kv = false)).
  induction params_in as [|[k v] l IH]; intros rest Hrest; simpl.
  - now exists rest.
  - unfold Js.seq. destruct (String.eqb k "openid.mode") eqn:E; [now apply IH|].
    unfold Obj.set. destruct (String.eqb k "__proto__"); [now apply IH|].
    unfold check_authentication_mode at 1.
    rewrite define_cons_other by now rewrite String.eqb_sym.
    apply IH.
    apply define_Forall; [assumption | exact E].
Qed.

Lemma distinct_NoDup (l : list string) : distinct l = true -> NoDup l.
Proof.
  induction l as [|k l IH]; simpl; intros H; [constructor|].
  apply andb_true_iff in H as [Hk Hl]. constructor; [|now apply IH].
  intros Hin. apply negb_true_iff in Hk.
  assert (existsb (String.eqb k) l = true) as Hex
    by (apply existsb_exists; exists k; split; [assumption | apply String.eqb_refl]).
  congruence.
Qed.

(** Received keys that are new to the object are created in the order
    they are received. *)
Lemma build_params_out_fresh (l : list (string * string)) (acc : Obj.t) :
  NoDup (map fst (non_mode_fields l)) ->
  Forall (fun kv => fst kv <> "__proto__") (non_mode_fields l) ->
  (forall k, In k (map fst (non_mode_fields l)) -> ~ In k (map fst acc)) ->
  fold_left
    (fun params_out kv =>
       if Js.seq (fst kv) "openid.mode" then params_out
       else Obj.set params_out (fst kv) (snd kv))
    l acc
  = (acc ++ non_mode_fields l)%list.
Proof.
  revert acc. induction l as [|[k v] l IH]; intros acc Hnd Hproto Hacc; simpl.
  - now rewrite app_nil_r.
  - unfold non_mode_fields, is_mode in *. simpl in *. unfold Js.seq.
    destruct (String.eqb k "openid.mode") eqn:E; simpl in *; [now apply IH|].
    inversion Hnd as [|? ? Hk Hnd']; subst. inversion Hproto as [|? ? Hp Hproto']; subst.
    simpl in Hp. apply String.eqb_neq in Hp. unfold Obj.set. rewrite Hp.
    rewrite define_fresh by (apply Hacc; now left).
    rewrite IH; [now rewrite <- app_assoc | assumption | assumption |].
    intros k' Hk' Hin. rewrite map_app in Hin. apply in_app_or in Hin as [Hin | Hin].
    + apply (Hacc k'); [now right | assumption].
    + simpl in Hin. destruct Hin as [<- | []]. contradiction.
Qed.

(* ================================================================== *)
(** * Properties of the re-validation request *)

(** Keys that are array indices are sent first, in numeric order, and
    [__proto__] is not sent. *)
Example revalidation_fields_index_keys :
  revalidation_fields [("b", "x"); ("10", "y"); ("__proto__", "z"); ("9", "w")]
  = [("9", "w"); ("10", "y"); ("openid.mode", "check_authentication"); ("b", "x")].
Proof. reflexivity. Qed.

(* ================================================================== *)
(** * Properties of the handler *)

Lemma callback_not_root (target : string) :
  Js.startsWith target "/auth/steam" = true -> Js.seq target "/" = false.
Proof.
  intros H. unfold Js.seq. destruct (String.eqb target "/") eqn:E; [|reflexivity].
  apply String.eqb_eq in E. subst target. discriminate.
Qed.

(** An exception of the identity extractor leaves [handle] before the
    response is touched and before any request is sent. *)
Lemma handle_extraction_failure
      (URL_searchParams : string -> list (string * string))
      (undici_request : Url.t -> string -> throws ClientResponse)
      (cfg : Config) (i : IncomingMessage) (o : ServerResponse) (e : exn) :
  Js.startsWith (url i) "/auth/steam" = true ->
  parse_oid_claimed_id_steam (Url.get (URL_searchParams (url i)) "openid.claimed_id")
  = inl e ->
  handle URL_searchParams undici_request cfg i o
  = mk_outcome o [] [LogRequest (method i) (url i)] (inl e).
Proof.
  intros Hpath He. unfold handle.
  now rewrite (callback_not_root _ Hpath), Hpath, He.
Qed.

(** The parameters of the redirect, in the order [Object.entries] lists
    them, and the address they serialize to. *)
Lemma provider_login_location_query :
  Obj.entries (steam_openid_params config)
  = [ ("openid.mode",       "checkid_setup");
      ("openid.ns",         "http://specs.openid.net/auth/2.0");
      ("openid.identity",   "http://specs.openid.net/auth/2.0/identifier_select");
      ("openid.claimed_id", "http://specs.openid.net/auth/2.0/identifier_select");
      ("openid.return_to",  "http://localhost:8080/auth/steam");
      ("openid.realm",      "http://localhost:8080") ]
  /\ provider_login_location
     = Url.base steam_openid_login ++ "?"
       ++ Url.serialize (Obj.entries (steam_openid_params config)).
Proof. split; reflexivity. Qed.


(** The comparison is with the whole request target: a query after the
    slash makes it another target. *)
Example root_with_query_not_found
        (URL_searchParams : string -> list (string * string))
        (undici_request : Url.t -> string -> throws ClientResponse) :
  response (serve URL_searchParams undici_request (mk_request "GET" "/?lang=en"))
  = mk_response 404 [] "" true.
Proof. reflexivity. Qed.


(** C1.  On a callback whose claimed identity is extracted and whose
    re-validation is answered with status 200 and a body the parser
    accepts, [handle] reports the identity as authenticated exactly when
    the parsed [is_valid] is [true], sets status 200 in that case and 401
    otherwise, ends the response and writes no body. *)
Theorem callback_verdict
        (URL_searchParams : string -> list (string * string))
        (undici_request : Url.t -> string -> throws ClientResponse)
        (cfg : Config) (i : IncomingMessage) (o : ServerResponse)
        (claimed_steam_id : string) (answer : ClientResponse)
        (parsed : check_authentication) :
  Js.startsWith (url i) "/auth/steam" = true ->
  parse_oid_claimed_id_steam (Url.get (URL_searchParams (url i)) "openid.claimed_id")
  = inr claimed_steam_id ->
  undici_request (revalidation_url cfg (URL_searchParams (url i))) "POST"
  = inr answer ->
  res_statusCode answer = 200 ->
  parse_oid_check_authentication (res_body answer) = inr parsed ->
  body o = "" ->
  let out := handle URL_searchParams undici_request cfg i o in
  console out = [LogRequest (method i) (url i);
                 LogAuthenticated claimed_steam_id (is_valid parsed)]
  /\ statusCode (response out) = (if is_valid parsed then 200 else 401)
  /\ body (response out) = ""
  /\ ended (response out) = true
  /\ headers (response out) = headers o
  /\ requests out = [(revalidation_url cfg (URL_searchParams (url i)), "POST")]
  /\ settled out = inr tt.
Proof.
  intros Hpath Hid Hreq Hstatus Hparse Hbody. unfold handle.
  rewrite (callback_not_root _ Hpath), Hpath, Hid, Hreq, Hstatus, Hparse.
  simpl. now rewrite Hbody.
Qed.

Lemma callback_verdict_witness :
  let accepted :=
    serve plain_searchParams
          (provider_answers 200 ("ns:http://specs.openid.net/auth/2.0" ++ lf
                                 ++ "is_valid:true" ++ lf))
          (mk_request "GET"
             "/auth/steam?openid.claimed_id=https://steamcommunity.com/openid/id/00000000000000000")
  in
  let rejected :=
    serve plain_searchParams
          (provider_answers 200 ("ns:http://specs.openid.net/auth/2.0" ++ lf
                                 ++ "is_valid:false" ++ lf))
          (mk_request "GET"
             "/auth/steam?openid.claimed_id=https://steamcommunity.com/openid/id/00000000000000000")
  in
  (statusCode (response accepted) = 200 /\ body (response accepted) = "")
  /\ (statusCode (response rejected) = 401 /\ body (response rejected) = "").
Proof.
  cbv zeta. split.
  - pose proof
      (callback_verdict plain_searchParams
         (provider_answers 200 ("ns:http://specs.openid.net/auth/2.0" ++ lf
                                ++ "is_valid:true" ++ lf))
         config
         (mk_request "GET"
            "/auth/steam?openid.claimed_id=https://steamcommunity.com/openid/id/00000000000000000")
         fresh_response "00000000000000000"
         (mk_client_response 200 ("ns:http://specs.openid.net/auth/2.0" ++ lf
                                  ++ "is_valid:true" ++ lf))
         (mk_check "http://specs.openid.net/auth/2.0" true)
         eq_refl eq_refl eq_refl eq_refl eq_refl eq_refl) as H.
    cbv zeta in H. destruct H as (_ & Hs & Hb & _). split; [exact Hs | exact Hb].
  - pose proof
      (callback_verdict plain_searchParams
         (provider_answers 200 ("ns:http://specs.openid.net/auth/2.0" ++ lf
                                ++ "is_valid:false" ++ lf))
         config
         (mk_request "GET"
            "/auth/steam?openid.claimed_id=https://steamcommunity.com/openid/id/00000000000000000")
         fresh_response "00000000000000000"
         (mk_client_response 200 ("ns:http://specs.openid.net/auth/2.0" ++ lf
                                  ++ "is_valid:false" ++ lf))
         (mk_check "http://specs.openid.net/auth/2.0" false)
         eq_refl eq_refl eq_refl eq_refl eq_refl eq_refl) as H.
    cbv zeta in H. destruct H as (_ & Hs & Hb & _). split; [exact Hs | exact Hb].
Defined.

(** The two other failures of the callback are answered with status
    500: an answer of the provider whose status is not 200, and a body
    the parser rejects. *)
Lemma handle_provider_failure
      (URL_searchParams : string -> list (string * string))
      (undici_request : Url.t -> string -> throws ClientResponse)
      (cfg : Config) (i : IncomingMessage) (o : ServerResponse)
      (claimed_steam_id : string) (answer : ClientResponse) :
  Js.startsWith (url i) "/auth/steam" = true ->
  parse_oid_claimed_id_steam (Url.get (URL_searchParams (url i)) "openid.claimed_id")
  = inr claimed_steam_id ->
  undici_request (revalidation_url cfg (URL_searchParams (url i))) "POST"
  = inr answer ->
  res_statusCode answer <> 200
  \/ failed (parse_oid_check_authentication (res_body answer)) ->
  let out := handle URL_searchParams undici_request cfg i o in
  statusCode (response out) = 500
  /\ ended (response out) = true
  /\ settled out = inr tt.
Proof.
  intros Hpath Hid Hreq Hbad. unfold handle.
  rewrite (callback_not_root _ Hpath), Hpath, Hid, Hreq. cbv zeta.
  destruct (res_statusCode answer =? 200) eqn:E; simpl; [|now repeat split].
  destruct Hbad as [Hbad | [x Hx]].
  - apply Z.eqb_eq in E. contradiction.
  - rewrite Hx. now repeat split.
Qed.

(** C2, on the code.  A callback without [openid.claimed_id], or with
    one the extractor rejects, makes [handle] throw before any request is
    sent, as the claim says; but the exception is not caught, so the
    status is never set (it is not 500) and the response is never ended. *)
Theorem callback_extraction_failure_unanswered
        (undici_request : Url.t -> string -> throws ClientResponse) :
  serve plain_searchParams undici_request (mk_request "GET" "/auth/steam")
  = mk_outcome fresh_response [] [LogRequest "GET" "/auth/steam"]
      (inl (TypeError "Cannot read properties of null (reading 'lastIndexOf')"))
  /\ serve plain_searchParams undici_request
           (mk_request "GET" "/auth/steam?openid.claimed_id=https://steamcommunity.com/openid/id/123")
     = mk_outcome fresh_response []
         [LogRequest "GET"
            "/auth/steam?openid.claimed_id=https://steamcommunity.com/openid/id/123"]
         (inl (Error "Could not parse Steam ID from 'claimed_id'"))
  /\ statusCode fresh_response <> 500
  /\ ended fresh_response = false.
Proof.
  split; [|split; [|split]].
  - now apply handle_extraction_failure.
  - now apply handle_extraction_failure.
  - discriminate.
  - reflexivity.
Qed.

(* ================================================================== *)
(** * More on the response parser *)

Lemma ns_form_not (l : string) :
  Js.startsWith l "ns:" = false -> forall v, l <> ns_line v.
Proof.
  intros H v ->. unfold Js.startsWith, ns_line in H. now rewrite prefix_app in H.
Qed.

Lemma is_valid_form_not (l : string) :
  Js.startsWith l "is_valid:" = false -> forall b, l <> is_valid_line b.
Proof.
  intros H b ->. unfold Js.startsWith, is_valid_line in H. now rewrite prefix_app in H.
Qed.

(** What the loop body accepts, and what it then stores. *)
Lemma parse_entry_inv (r r' : partial_result) (e : string) :
  parse_entry r e = inr r' ->
  (exists v, e = ns_line v /\ r' = mk_partial (Some v) (p_is_valid r))
  \/ (exists b, e = is_valid_line b /\ r' = mk_partial (p_ns r) (Some b)).
Proof.
  intros H. destruct (Js.startsWith e "ns:") eqn:Hns.
  - destruct (prefix_inv _ _ Hns) as [v ->]. left. exists v.
    change ("ns:" ++ v)%string with (ns_line v) in *.
    rewrite parse_entry_ns in H. now inversion H.
  - destruct (Js.startsWith e "is_valid:") eqn:Hv.
    + destruct (prefix_inv _ _ Hv) as [v ->]. right.
      rewrite parse_entry_is_valid_value in H. unfold Js.seq in H.
      destruct (String.eqb v "true") eqn:Et.
      * apply String.eqb_eq in Et. subst v. exists true. now inversion H.
      * destruct (String.eqb v "false") eqn:Ef; [|discriminate].
        apply String.eqb_eq in Ef. subst v. exists false. now inversion H.
    + unfold parse_entry in H. rewrite Hns, Hv in H. discriminate.
Qed.

Lemma parse_entries_inv_recognized (es : list string) (r r' : partial_result) :
  parse_entries es r = inr r' ->
  Forall (fun e => (exists v, e = ns_line v) \/ (exists b, e = is_valid_line b)) es.
Proof.
  revert r. induction es as [|e es IH]; intros r H; [constructor|].
  simpl in H. destruct (parse_entry r e) as [x|r1] eqn:E; simpl in H; [discriminate|].
  constructor; [|now apply (IH r1)].
  destruct (parse_entry_inv _ _ _ E) as [(v & -> & _) | (b & -> & _)];
    [left; now exists v | right; now exists b].
Qed.

(** Where the [ns] of the final state comes from: the state the loop
    started in, or the last [ns] entry. *)
Lemma parse_entries_ns_source (es : list string) (r r' : partial_result) :
  parse_entries es r = inr r' ->
  (p_ns r' = p_ns r /\ Forall (fun e => Js.startsWith e "ns:" = false) es)
  \/ (exists pre post n,
         es = (pre ++ ns_line n :: post)%list /\ p_ns r' = Some n
         /\ Forall (fun e => Js.startsWith e "ns:" = false) post).
Proof.
  revert r. induction es as [|e es IH]; intros r H.
  - left. simpl in H. inversion H. now split.
  - simpl in H. destruct (parse_entry r e) as [x|r1] eqn:E; simpl in H; [discriminate|].
    destruct (IH _ H) as [[Hsame Hno] | (pre & post & n & -> & Hn & Hpost)].
    + destruct (parse_entry_inv _ _ _ E) as [(v & -> & ->) | (b & -> & ->)].
      * right. exists [], es, v. now repeat split.
      * left. split; [exact Hsame|]. constructor; [now destruct b | exact Hno].
    + right. now exists (e :: pre), post, n.
Qed.

Lemma parse_entries_is_valid_source (es : list string) (r r' : partial_result) :
  parse_entries es r = inr r' ->
  (p_is_valid r' = p_is_valid r
   /\ Forall (fun e => Js.startsWith e "is_valid:" = false) es)
  \/ (exists pre post b,
         es = (pre ++ is_valid_line b :: post)%list /\ p_is_valid r' = Some b
         /\ Forall (fun e => Js.startsWith e "is_valid:" = false) post).
Proof.
  revert r. induction es as [|e es IH]; intros r H.
  - left. simpl in H. inversion H. now split.
  - simpl in H. destruct (parse_entry r e) as [x|r1] eqn:E; simpl in H; [discriminate|].
    destruct (IH _ H) as [[Hsame Hno] | (pre & post & b & -> & Hb & Hpost)].
    + destruct (parse_entry_inv _ _ _ E) as [(v & -> & ->) | (b & -> & ->)].
      * left. split; [exact Hsame|]. constructor; [reflexivity | exact Hno].
      * right. exists [], es, b. now repeat split.
    + right. now exists (e :: pre), post, b.
Qed.

(** A place in the kept elements is a place in the list. *)
Lemma filter_split {A : Type} (f : A -> bool) (l a b : list A) (x : A) :
  filter f l = (a ++ x :: b)%list ->
  exists a' b', l = (a' ++ x :: b')%list /\ filter f a' = a /\ filter f b' = b.
Proof.
  revert a. induction l as [|y l IH]; intros a H; simpl in H.
  - now destruct a.
  - destruct (f y) eqn:E.
    + destruct a as [|z a]; simpl in H; injection H as Hy Hrest.
      * subst y. exists [], l. simpl. now repeat split.
      * subst z. destruct (IH _ Hrest) as (a' & b' & -> & <- & <-).
        exists (y :: a'), b'. simpl. rewrite E. now repeat split.
    + destruct (IH _ H) as (a' & b' & -> & <- & <-).
      exists (y :: a'), b'. simpl. rewrite E. now repeat split.
Qed.

Lemma recognized_entries (ls : list string) :
  Forall recognized ls ->
  Forall (fun e => (exists v, e = ns_line v) \/ (exists b, e = is_valid_line b))
         (filter Js.truthy ls).
Proof.
  intros H. apply Forall_forall. intros e He. apply filter_In in He as [He Hne].
  rewrite Forall_forall in H. destruct (H e He) as [-> | Hr]; [discriminate | exact Hr].
Qed.

(** X1.  What the parser returns was read from the text: when it
    returns a payload, every line of the text is empty, an [ns] line or
    an [is_valid] line with a literal, the returned [ns] is the value of
    the last [ns] line and the returned [is_valid] that of the last
    [is_valid] line. *)
Theorem parse_success_inv (text : string) (r : check_authentication) :
  parse_oid_check_authentication text = inr r ->
  Forall recognized (Js.split LF text)
  /\ (exists pre post,
         Js.split LF text = (pre ++ ns_line (ns r) :: post)%list
         /\ Forall (fun l => forall v, l <> ns_line v) post)
  /\ (exists pre post,
         Js.split LF text = (pre ++ is_valid_line (is_valid r) :: post)%list
         /\ Forall (fun l => forall b, l <> is_valid_line b) post).
Proof.
  unfold parse_oid_check_authentication, entries_of. intros H.
  destruct (parse_entries (filter Js.truthy (Js.split LF text)) empty_result)
    as [x|r'] eqn:E; simpl in H; [discriminate|].
  unfold check_complete in H.
  destruct (p_ns r') as [n|] eqn:En; [|discriminate].
  destruct (p_is_valid r') as [b|] eqn:Eb; [|discriminate].
  inversion H; subst r; clear H. simpl. split; [|split].
  - pose proof (parse_entries_inv_recognized _ _ _ E) as Hrec.
    rewrite Forall_forall in Hrec. apply Forall_forall. intros l Hl.
    destruct l as [|c l'] eqn:El; [now left | right].
    apply Hrec, filter_In. now split.
  - destruct (parse_entries_ns_source _ _ _ E)
      as [[Hsame _] | (pre & post & n' & Hes & Hn & Hpost)].
    + rewrite En in Hsame. discriminate.
    + rewrite En in Hn. inversion Hn; subst n'.
      destruct (filter_split _ _ _ _ _ Hes) as (pre' & post' & Hls & _ & Hpost').
      exists pre', post'. split; [exact Hls|].
      apply Forall_forall. intros l Hl v ->.
      assert (In (ns_line v) post) as Hin
        by (rewrite <- Hpost'; apply filter_In; now split).
      rewrite Forall_forall in Hpost. now apply (ns_form_not _ (Hpost _ Hin) v).
  - destruct (parse_entries_is_valid_source _ _ _ E)
      as [[Hsame _] | (pre & post & b' & Hes & Hb & Hpost)].
    + rewrite Eb in Hsame. discriminate.
    + rewrite Eb in Hb. inversion Hb; subst b'.
      destruct (filter_split _ _ _ _ _ Hes) as (pre' & post' & Hls & _ & Hpost').
      exists pre', post'. split; [exact Hls|].
      apply Forall_forall. intros l Hl b0 ->.
      assert (In (is_valid_line b0) post) as Hin
        by (rewrite <- Hpost'; apply filter_In; split; [assumption | now destruct b0]).
      rewrite Forall_forall in Hpost. now apply (is_valid_form_not _ (Hpost _ Hin) b0).
Qed.

Lemma parse_success_inv_witness :
  let text := ("is_valid:false" ++ lf ++ "ns:a" ++ lf ++ lf ++ "is_valid:true" ++ lf)%string in
  Forall recognized (Js.split LF text)
  /\ (exists pre post,
         Js.split LF text = (pre ++ ns_line "a" :: post)%list
         /\ Forall (fun l => forall v, l <> ns_line v) post)
  /\ (exists pre post,
         Js.split LF text = (pre ++ is_valid_line true :: post)%list
         /\ Forall (fun l => forall b, l <> is_valid_line b) post).
Proof.
  exact (parse_success_inv
           ("is_valid:false" ++ lf ++ "ns:a" ++ lf ++ lf ++ "is_valid:true" ++ lf)
           (mk_check "a" true) eq_refl).
Defined.

(** X2.  Empty lines carry nothing: a line feed before the text, a line
    feed after it, or a doubled line feed inside it does not change what
    the parser answers. *)
Theorem parse_ignores_blank_lines (s t : string) :
  parse_oid_check_authentication (lf ++ t) = parse_oid_check_authentication t
  /\ parse_oid_check_authentication (t ++ lf) = parse_oid_check_authentication t
  /\ parse_oid_check_authentication (s ++ lf ++ lf ++ t)
     = parse_oid_check_authentication (s ++ lf ++ t).
Proof.
  unfold parse_oid_check_authentication. split; [|split].
  - change (lf ++ t)%string with ("" ++ lf ++ t)%string. now rewrite entries_of_app.
  - change (t ++ lf)%string with (t ++ lf ++ "")%string.
    rewrite entries_of_app. change (entries_of "") with (@nil string).
    now rewrite app_nil_r.
  - change (s ++ lf ++ lf ++ t)%string with (s ++ lf ++ "" ++ lf ++ t)%string.
    now rewrite !entries_of_app.
Qed.

Lemma parse_entries_stops (pre post : list string) (bad : string)
      (r : partial_result) (x : exn) :
  Forall (fun e => (exists v, e = ns_line v) \/ (exists b, e = is_valid_line b)) pre ->
  (forall r0, parse_entry r0 bad = inl x) ->
  parse_entries (pre ++ bad :: post) r = inl x.
Proof.
  intros Hpre Hbad. rewrite parse_entries_app.
  destruct (parse_entries_recognized pre r Hpre) as [r1 ->]. simpl.
  now rewrite Hbad.
Qed.

(** X3.  The exception tells the first line that is not recognized:
    after recognized lines, a non-empty line that is neither an [ns] nor
    an [is_valid] line is reported by name as an unknown entry, and an
    [is_valid] line with another value than a literal as a value that is
    no boolean, whatever follows. *)
Theorem parse_reports_first_offender (pre post : list string) (bad : string) :
  Forall is_line (pre ++ bad :: post) ->
  Forall recognized pre ->
  bad <> "" ->
  ((forall v, bad <> ns_line v) -> (forall v, bad <> "is_valid:" ++ v) ->
   parse_oid_check_authentication (unlines (pre ++ bad :: post))
   = inl (Error ("Unknown entry '" ++ bad ++ "'")))
  /\ (forall v, bad = ("is_valid:" ++ v)%string -> v <> "true" -> v <> "false" ->
      parse_oid_check_authentication (unlines (pre ++ bad :: post))
      = inl (Error "Could not parse value 'is_valid' as boolean")).
Proof.
  intros Hls Hpre Hne.
  assert (filter Js.truthy (pre ++ bad :: post)
          = (filter Js.truthy pre ++ bad :: filter Js.truthy post)%list) as Hes
    by (rewrite filter_app; simpl; now destruct bad).
  unfold parse_oid_check_authentication. rewrite (entries_of_unlines _ Hls), Hes. split.
  - intros Hns Hv.
    rewrite (parse_entries_stops _ _ _ _ (Error ("Unknown entry '" ++ bad ++ "'")));
      [reflexivity | now apply recognized_entries |].
    intros r0. unfold parse_entry.
    now rewrite (not_ns_form _ Hns), (not_is_valid_form _ Hv).
  - intros v -> Ht Hf.
    rewrite (parse_entries_stops _ _ _ _
               (Error "Could not parse value 'is_valid' as boolean"));
      [reflexivity | now apply recognized_entries |].
    intros r0. rewrite parse_entry_is_valid_value. unfold Js.seq.
    apply String.eqb_neq in Ht, Hf. now rewrite Ht, Hf.
Qed.

Lemma parse_reports_first_offender_witness :
  parse_oid_check_authentication
    (unlines (["ns:a"; ""; "is_valid:true"] ++ "mode:id_res" :: ["is_valid:maybe"]))
  = inl (Error ("Unknown entry '" ++ "mode:id_res" ++ "'"))
  /\ parse_oid_check_authentication
       (unlines (["ns:a"] ++ "is_valid:maybe" :: ["mode:id_res"]))
     = inl (Error "Could not parse value 'is_valid' as boolean").
Proof.
  split.
  - apply (proj1 (parse_reports_first_offender
                    ["ns:a"; ""; "is_valid:true"] ["is_valid:maybe"] "mode:id_res"
                    ltac:(repeat constructor)
                    ltac:(constructor; [right; left; now exists "a"|];
                          constructor; [now left|];
                          constructor; [right; right; now exists true | constructor])
                    ltac:(discriminate))).
    + intros v. discriminate.
    + intros v. discriminate.
  - apply (proj2 (parse_reports_first_offender
                    ["ns:a"] ["mode:id_res"] "is_valid:maybe"
                    ltac:(repeat constructor)
                    ltac:(constructor; [right; left; now exists "a" | constructor])
                    ltac:(discriminate)) "maybe").
    + reflexivity.
    + discriminate.
    + discriminate.
Defined.

(** X4.  A text of recognized lines that lacks the [ns] line or the
    [is_valid] line (the empty text among them) is rejected with the
    exception for missing entries. *)
Theorem parse_incomplete (ls : list string) :
  Forall is_line ls ->
  Forall recognized ls ->
  Forall (fun l => forall v, l <> ns_line v) ls
  \/ Forall (fun l => forall b, l <> is_valid_line b) ls ->
  parse_oid_check_authentication (unlines ls)
  = inl (Error "Expected entries 'ns' and 'is_valid'").
Proof.
  intros Hls Hrec Hmiss. unfold parse_oid_check_authentication.
  rewrite (entries_of_unlines _ Hls).
  destruct (parse_entries_recognized _ empty_result (recognized_entries _ Hrec))
    as [r Hr].
  rewrite Hr. simpl. unfold check_complete. destruct Hmiss as [Hno | Hno].
  - rewrite (parse_entries_keep_ns _ _ _ (Forall_filter_impl _ _ _ _ not_ns_form Hno) Hr).
    reflexivity.
  - assert (p_is_valid r = None) as ->; [|now destruct (p_ns r)].
    apply (parse_entries_keep_is_valid _ _ _) with (2 := Hr).
    apply Forall_forall. intros e He. apply filter_In in He as [He Hne].
    rewrite Forall_forall in Hrec, Hno.
    destruct (Hrec e He) as [-> | [[v ->] | [b ->]]]; try reflexivity.
    now elim (Hno _ He b).
Qed.

Lemma parse_incomplete_witness :
  parse_oid_check_authentication (unlines [])
  = inl (Error "Expected entries 'ns' and 'is_valid'")
  /\ parse_oid_check_authentication (unlines ["ns:a"; ""; "ns:b"])
     = inl (Error "Expected entries 'ns' and 'is_valid'")
  /\ parse_oid_check_authentication (unlines ["is_valid:true"])
     = inl (Error "Expected entries 'ns' and 'is_valid'").
Proof.
  split; [|split].
  - apply (parse_incomplete []); [constructor | constructor | left; constructor].
  - apply (parse_incomplete ["ns:a"; ""; "ns:b"]).
    + repeat constructor.
    + constructor; [right; left; now exists "a"|].
      constructor; [now left|].
      constructor; [right; left; now exists "b" | constructor].
    + right. repeat constructor; intros [|]; discriminate.
  - apply (parse_incomplete ["is_valid:true"]).
    + repeat constructor.
    + constructor; [right; right; now exists true | constructor].
    + left. repeat constructor. intros v. discriminate.
Defined.

(** X5.  Of two texts put one after the other, the later one decides:
    when the first holds recognized lines only and the second is parsed
    to a payload, the two joined by a line feed are parsed to that same
    payload. *)
Theorem parse_later_text_wins (a b : string) (rb : check_authentication) :
  Forall recognized (Js.split LF a) ->
  parse_oid_check_authentication b = inr rb ->
  parse_oid_check_authentication (a ++ lf ++ b) = inr rb.
Proof.
  intros Ha Hb. unfold parse_oid_check_authentication in *.
  rewrite entries_of_app, parse_entries_app.
  destruct (parse_entries_recognized (entries_of a) empty_result
              (recognized_entries _ Ha)) as [ra ->].
  simpl.
  destruct (parse_entries (entries_of b) empty_result) as [x|r'] eqn:E;
    simpl in Hb; [discriminate|].
  unfold check_complete in Hb.
  destruct (p_ns r') as [n|] eqn:En; [|discriminate].
  destruct (p_is_valid r') as [v|] eqn:Ev; [|discriminate].
  inversion Hb; subst rb; clear Hb.
  destruct (parse_entries_recognized (entries_of b) ra
              (parse_entries_inv_recognized _ _ _ E)) as [r2 Hr2].
  rewrite Hr2. simpl. unfold check_complete.
  destruct (parse_entries_ns_source _ _ _ E)
    as [[Hsame _] | (pre & post & n' & Hes & Hn & Hpost)];
    [rewrite En in Hsame; discriminate|].
  rewrite En in Hn. inversion Hn; subst n'.
  pose proof Hr2 as Hr2n. rewrite Hes in Hr2n.
  rewrite (parse_entries_last_ns _ _ _ _ _ Hpost Hr2n).
  destruct (parse_entries_is_valid_source _ _ _ E)
    as [[Hsame _] | (pre' & post' & v' & Hes' & Hv & Hpost')];
    [rewrite Ev in Hsame; discriminate|].
  rewrite Ev in Hv. inversion Hv; subst v'.
  rewrite Hes' in Hr2.
  now rewrite (parse_entries_last_is_valid _ _ _ _ _ Hpost' Hr2).
Qed.

Lemma parse_later_text_wins_witness :
  parse_oid_check_authentication
    (("ns:old" ++ lf ++ "is_valid:true") ++ lf ++ ("is_valid:false" ++ lf ++ "ns:new"))
  = inr (mk_check "new" false).
Proof.
  apply (parse_later_text_wins ("ns:old" ++ lf ++ "is_valid:true")
           ("is_valid:false" ++ lf ++ "ns:new") (mk_check "new" false)).
  - constructor; [right; left; now exists "old"|].
    constructor; [right; right; now exists true | constructor].
  - reflexivity.
Defined.

(* ================================================================== *)
(** * More on the identity extractor *)

(** A string that holds [c] is cut at its last [c]. *)
Lemma occurs_last (c : ascii) (s : string) :
  occurs c s = true ->
  exists p t, s = (p ++ String c t)%string /\ occurs c t = false.
Proof.
  induction s as [|a s IH]; simpl; intros H; [discriminate|].
  destruct (occurs c s) eqn:Hs.
  - destruct (IH eq_refl) as (p & t & -> & Ht). now exists (String a p), t.
  - rewrite orb_false_r in H. apply Ascii.eqb_eq in H. subst a.
    now exists EmptyString, s.
Qed.

(** X6.  What the extractor returns was read from the claimed identity:
    when it returns [id], the claimed identity is a non-empty prefix, a
    slash and [id]; [id] is 17 code units long and holds no slash. *)
Theorem extract_success_inv (claimed_id id : string) :
  parse_oid_claimed_id_steam (Some claimed_id) = inr id ->
  exists prefix,
    claimed_id = (prefix ++ "/" ++ id)%string
    /\ prefix <> ""
    /\ Js.length id = 17
    /\ occurs SLASH id = false.
Proof.
  intros H. destruct (occurs SLASH claimed_id) eqn:Hs.
  - destruct (occurs_last _ _ Hs) as (p & t & -> & Ht).
    change (p ++ String SLASH t)%string with (p ++ "/" ++ t)%string in H.
    unfold parse_oid_claimed_id_steam in H.
    rewrite (lastIndexOf_last _ _ Ht), segment_after_slash in H.
    destruct (0 <? Js.length p) eqn:Hp; simpl in H; [|discriminate].
    destruct (Js.length t =? 17) eqn:Hlen; simpl in H; [|discriminate].
    inversion H; subst t. exists p. repeat split.
    + intros ->. discriminate.
    + now apply Z.eqb_eq.
    + exact Ht.
  - unfold parse_oid_claimed_id_steam, Js.lastIndexOf in H.
    rewrite (lastIndexOf_from_absent _ _ _ Hs) in H. discriminate.
Qed.

Lemma extract_success_inv_witness :
  exists prefix,
    "https://steamcommunity.com/openid/id/00000000000000000"
    = (prefix ++ "/" ++ "00000000000000000")%string
    /\ prefix <> ""
    /\ Js.length "00000000000000000" = 17
    /\ occurs SLASH "00000000000000000" = false.
Proof.
  exact (extract_success_inv "https://steamcommunity.com/openid/id/00000000000000000"
           "00000000000000000" eq_refl).
Defined.

(* ================================================================== *)
(** * Lookup in objects and in their entries *)

Lemma get_app (a b : list (string * string)) (k : string) :
  Url.get (a ++ b) k
  = match Url.get a k with Some v => Some v | None => Url.get b k end.
Proof.
  induction a as [|[k0 v0] a IH]; simpl; [reflexivity|].
  now destruct (String.eqb k0 k).
Qed.

Lemma get_define (o : Obj.t) (k v k' : string) :
  Url.get (Obj.define o k v) k'
  = if String.eqb k k' then Some v else Url.get o k'.
Proof.
  induction o as [|[k0 v0] o IH]; simpl; [reflexivity|].
  destruct (String.eqb k0 k) eqn:E0; simpl.
  - apply String.eqb_eq in E0. subst k0. now destruct (String.eqb k k').
  - rewrite IH. destruct (String.eqb k0 k') eqn:E1; [|reflexivity].
    apply String.eqb_eq in E1. subst k'. rewrite String.eqb_sym in E0. now rewrite E0.
Qed.

Lemma define_keys_present (o : Obj.t) (k v : string) :
  In k (map fst o) -> map fst (Obj.define o k v) = map fst o.
Proof.
  induction o as [|[k0 v0] o IH]; simpl; intros H; [contradiction|].
  destruct (String.eqb k0 k) eqn:E; [reflexivity|].
  simpl. f_equal. apply IH. destruct H as [H | H]; [|assumption].
  apply String.eqb_neq in E. contradiction.
Qed.

(** Defining a property keeps the keys of an object distinct. *)
Lemma define_NoDup (o : Obj.t) (k v : string) :
  NoDup (map fst o) -> NoDup (map fst (Obj.define o k v)).
Proof.
  intros H. destruct (in_dec string_dec k (map fst o)) as [Hin | Hout].
  - now rewrite define_keys_present.
  - rewrite define_fresh, map_app by assumption. simpl.
    apply NoDup_app; [assumption | repeat constructor; tauto |].
    intros x Hx [<- | []]. contradiction.
Qed.

Lemma get_absent (l : list (string * string)) (k : string) :
  ~ In k (map fst l) -> Url.get l k = None.
Proof.
  induction l as [|[k0 v0] l IH]; simpl; intros H; [reflexivity|].
  destruct (String.eqb k0 k) eqn:E; [apply String.eqb_eq in E; tauto | apply IH; tauto].
Qed.

(** Lists with distinct keys that hold the same pairs answer every
    lookup alike. *)
Lemma get_Permutation (l l' : list (string * string)) (k : string) :
  Permutation l l' -> NoDup (map fst l) -> Url.get l k = Url.get l' k.
Proof.
  induction 1 as [|[k0 v0] l l' Hp IH|[k0 v0] [k1 v1] l|l l' l'' Hp IH Hp' IH']; intros Hnd.
  - reflexivity.
  - simpl. inversion Hnd; subst. now rewrite IH.
  - simpl. destruct (String.eqb k1 k) eqn:E1, (String.eqb k0 k) eqn:E0; try reflexivity.
    apply String.eqb_eq in E1, E0. subst. inversion Hnd; subst. simpl in *. tauto.
  - rewrite IH by assumption. apply IH'.
    apply (Permutation_NoDup (Permutation_map fst Hp) Hnd).
Qed.

Lemma insert_by_index_Permutation (kv : string * string) (l : list (string * string)) :
  Permutation (Obj.insert_by_index kv l) (kv :: l).
Proof.
  induction l as [|kv' l IH]; simpl; [reflexivity|].
  destruct (Obj.index_of kv <=? Obj.index_of kv')%N; [reflexivity|].
  rewrite IH. apply perm_swap.
Qed.

Lemma sort_by_index_Permutation (l : list (string * string)) :
  Permutation (Obj.sort_by_index l) l.
Proof.
  induction l as [|kv l IH]; simpl; [reflexivity|].
  rewrite insert_by_index_Permutation. now constructor.
Qed.

Lemma filter_partition_Permutation {A : Type} (f : A -> bool) (l : list A) :
  Permutation (filter f l ++ filter (fun x => negb (f x)) l) l.
Proof.
  induction l as [|x l IH]; simpl; [reflexivity|].
  destruct (f x); simpl.
  - now constructor.
  - rewrite <- Permutation_middle. now constructor.
Qed.

(** [Object.entries] lists exactly the properties of the object. *)
Lemma entries_Permutation (o : Obj.t) : Permutation (Obj.entries o) o.
Proof.
  unfold Obj.entries. rewrite sort_by_index_Permutation.
  apply filter_partition_Permutation.
Qed.

Lemma get_entries (o : Obj.t) (k : string) :
  NoDup (map fst o) -> Url.get (Obj.entries o) k = Url.get o k.
Proof.
  intros H. apply get_Permutation; [apply entries_Permutation|].
  apply (Permutation_NoDup (Permutation_map fst (Permutation_sym (entries_Permutation o))) H).
Qed.

(* ================================================================== *)
(** * More on the object [params_out] *)

Lemma build_params_out_NoDup (params_in : list (string * string)) :
  NoDup (map fst (build_params_out params_in)).
Proof.
  unfold build_params_out.
  assert (NoDup (map fst (object_literal [("openid.mode", "check_authentication")])))
    as H by (repeat constructor; simpl; tauto).
  revert H. generalize (object_literal [("openid.mode", "check_authentication")]).
  induction params_in as [|[k v] l IH]; intros acc H; simpl; [assumption|].
  apply IH. destruct (Js.seq k "openid.mode"); [assumption|].
  unfold Obj.set. destruct (String.eqb k "__proto__"); [assumption|].
  now apply define_NoDup.
Qed.

(** The loop leaves the [openid.mode] and the [__proto__] of the object
    as they were, and gives every other key its last received value. *)
Lemma get_build_params_out (l : list (string * string)) (acc : Obj.t) (k : string) :
  Url.get
    (fold_left
       (fun params_out kv =>
          if Js.seq (fst kv) "openid.mode" then params_out
          else Obj.set params_out (fst kv) (snd kv))
       l acc) k
  = if String.eqb k "openid.mode" || String.eqb k "__proto__" then Url.get acc k
    else match Url.get (rev l) k with
         | Some v => Some v
         | None => Url.get acc k
         end.
Proof.
  revert acc. induction l as [|[k0 v0] l IH]; intros acc.
  - simpl. now destruct (String.eqb k "openid.mode" || String.eqb k "__proto__").
  - simpl fold_left. rewrite IH. simpl rev. rewrite get_app. simpl fst. simpl snd.
    unfold Js.seq, Obj.set. simpl Url.get.
    destruct (String.eqb k "openid.mode") eqn:Em; simpl orb.
    + apply String.eqb_eq in Em. subst k.
      destruct (String.eqb k0 "openid.mode") eqn:E0; [reflexivity|].
      destruct (String.eqb k0 "__proto__"); [reflexivity|].
      now rewrite get_define, E0.
    + destruct (String.eqb k "__proto__") eqn:Ep.
      * apply String.eqb_eq in Ep. subst k.
        destruct (String.eqb k0 "openid.mode"); [reflexivity|].
        destruct (String.eqb k0 "__proto__") eqn:E0; [reflexivity|].
        now rewrite get_define, E0.
      * destruct (Url.get (rev l) k); [reflexivity|].
        destruct (String.eqb k0 k) eqn:E0.
        -- apply String.eqb_eq in E0. subst k0. rewrite Em, Ep.
           now rewrite get_define, String.eqb_refl.
        -- destruct (String.eqb k0 "openid.mode"); [reflexivity|].
           destruct (String.eqb k0 "__proto__"); [reflexivity|].
           now rewrite get_define, E0.
Qed.

Lemma searchParams_revalidation_url (cfg : Config) (params_in : list (string * string)) :
  Url.searchParams (revalidation_url cfg params_in)
  = Obj.entries (build_params_out params_in).
Proof. unfold revalidation_url. now rewrite searchParams_append_all. Qed.

(** Lookup in the fields of the request sent for [params_in]. *)
Lemma get_revalidation_url (cfg : Config) (params_in : list (string * string))
      (k : string) :
  Url.get (Url.searchParams (revalidation_url cfg params_in)) k
  = if String.eqb k "openid.mode" then Some "check_authentication"
    else if String.eqb k "__proto__" then None
    else Url.get (rev params_in) k.
Proof.
  rewrite searchParams_revalidation_url, get_entries by apply build_params_out_NoDup.
  unfold build_params_out. rewrite get_build_params_out.
  change (object_literal [("openid.mode", "check_authentication")])
    with [("openid.mode", "check_authentication")].
  change (Url.get [("openid.mode", "check_authentication")] k)
    with (if String.eqb "openid.mode" k then Some "check_authentication" else None).
  rewrite (String.eqb_sym "openid.mode" k).
  destruct (String.eqb k "openid.mode") eqn:Em; [reflexivity|].
  destruct (String.eqb k "__proto__"); [reflexivity|].
  now destruct (Url.get (rev params_in) k).
Qed.

(* ================================================================== *)
(** * More on the re-validation request *)

(** X7.  The re-validation request names every key once; it never
    holds [__proto__]; and for every other key than [openid.mode] it
    holds the value the key was received with last (and lacks the key
    when it was not received). *)
Theorem forwarded_value_is_last (params_in : list (string * string)) :
  NoDup (map fst (revalidation_fields params_in))
  /\ Url.get (revalidation_fields params_in) "__proto__" = None
  /\ (forall k, k <> "openid.mode" -> k <> "__proto__" ->
      Url.get (revalidation_fields params_in) k = Url.get (rev params_in) k).
Proof.
  split; [|split].
  - rewrite revalidation_fields_entries.
    apply (Permutation_NoDup
             (Permutation_map fst (Permutation_sym (entries_Permutation _)))).
    apply build_params_out_NoDup.
  - unfold revalidation_fields. now rewrite get_revalidation_url.
  - intros k Hm Hp. unfold revalidation_fields. rewrite get_revalidation_url.
    apply String.eqb_neq in Hm, Hp. now rewrite Hm, Hp.
Qed.

Lemma forwarded_value_is_last_witness :
  Url.get (revalidation_fields
             [("openid.sig", "first"); ("__proto__", "x"); ("openid.sig", "second")])
          "openid.sig"
  = Some "second".
Proof.
  apply (proj2 (proj2 (forwarded_value_is_last
                         [("openid.sig", "first"); ("__proto__", "x");
                          ("openid.sig", "second")])) "openid.sig");
    discriminate.
Defined.

(** X8.  The address the re-validation is sent to is that of the
    configured URL without its query, with the fields of the request,
    form-urlencoded, as the query, and with the fragment of the
    configured URL; the fields do not depend on the configuration. *)
Theorem revalidation_address (cfg : Config) (params_in : list (string * string)) :
  Url.searchParams (revalidation_url cfg params_in) = revalidation_fields params_in
  /\ Url.toString (revalidation_url cfg params_in)
     = Url.base (steam_openid_url cfg) ++ "?"
       ++ Url.serialize (revalidation_fields params_in)
       ++ match Url.fragment (steam_openid_url cfg) with
          | None => ""
          | Some f => "#" ++ f
          end.
Proof.
  split.
  - now rewrite searchParams_revalidation_url, revalidation_fields_entries.
  - rewrite revalidation_fields_entries. unfold revalidation_url.
    apply rebuilt_address.
    destruct (build_params_out_shape params_in) as (rest & -> & _).
    intros H. apply (f_equal (@List.length _)) in H.
    rewrite (Permutation_length (entries_Permutation _)) in H. discriminate.
Qed.

(* ================================================================== *)
(** * More on the handler *)

(** X9.  Whatever the request and the services answer, [handle] writes
    no body; it changes headers only for the target [/]; when it
    returns, the response is ended with one of the statuses 200, 204,
    303, 401, 404, 500; and when it throws, the response is as it was
    (no status set, not ended). *)
Theorem handle_response_invariants
        (URL_searchParams : string -> list (string * string))
        (undici_request : Url.t -> string -> throws ClientResponse)
        (cfg : Config) (i : IncomingMessage) (o : ServerResponse) :
  let out := handle URL_searchParams undici_request cfg i o in
  body (response out) = body o
  /\ (url i <> "/" -> headers (response out) = headers o)
  /\ (settled out = inr tt ->
      ended (response out) = true
      /\ In (statusCode (response out)) [200; 204; 303; 401; 404; 500])
  /\ (forall e, settled out = inl e -> response out = o).
Proof.
  cbv zeta. unfold handle.
  destruct (Js.seq (url i) "/") eqn:Eroot.
  { apply String.eqb_eq in Eroot. simpl. repeat split; try tauto; discriminate. }
  destruct (Js.startsWith (url i) "/auth/steam").
  - destruct (parse_oid_claimed_id_steam _) as [e|id].
    { simpl. repeat split; try discriminate. }
    cbv zeta.
    destruct (undici_request _ _) as [e|answer].
    { simpl. repeat split; try discriminate. }
    destruct (negb (res_statusCode answer =? 200)).
    { simpl. repeat split; try tauto; discriminate. }
    destruct (parse_oid_check_authentication _) as [e|parsed].
    { simpl. repeat split; try tauto; discriminate. }
    simpl. repeat split; try discriminate.
    destruct (is_valid parsed); tauto.
  - destruct (Js.seq (url i) "/favicon.ico"); simpl;
      repeat split; try tauto; discriminate.
Qed.

(** X10.  [handle] sends a request exactly when the target starts with
    [/auth/steam] and the identity is extracted; it then sends one
    request, a POST to the re-validation URL, whatever the provider
    answers. *)
Theorem handle_requests
        (URL_searchParams : string -> list (string * string))
        (undici_request : Url.t -> string -> throws ClientResponse)
        (cfg : Config) (i : IncomingMessage) (o : ServerResponse) :
  requests (handle URL_searchParams undici_request cfg i o)
  = if Js.startsWith (url i) "/auth/steam" then
      match parse_oid_claimed_id_steam
              (Url.get (URL_searchParams (url i)) "openid.claimed_id") with
      | inr _ => [(revalidation_url cfg (URL_searchParams (url i)), "POST")]
      | inl _ => []
      end
    else [].
Proof.
  unfold handle. destruct (Js.startsWith (url i) "/auth/steam") eqn:Epath.
  - rewrite (callback_not_root _ Epath).
    destruct (parse_oid_claimed_id_steam _) as [e|id]; [reflexivity|]. cbv zeta.
    destruct (undici_request _ _) as [e|answer]; [reflexivity|].
    destruct (negb (res_statusCode answer =? 200)); [reflexivity|].
    now destruct (parse_oid_check_authentication _).
  - destruct (Js.seq (url i) "/"); [reflexivity|].
    now destruct (Js.seq (url i) "/favicon.ico").
Qed.

(** X11.  When the provider answers the re-validation with another
    status than 200, [handle] sets status 500 and ends the response
    without reading the body of the answer: nothing about it is logged. *)
Theorem provider_status_not_200
        (URL_searchParams : string -> list (string * string))
        (undici_request : Url.t -> string -> throws ClientResponse)
        (cfg : Config) (i : IncomingMessage) (o : ServerResponse)
        (claimed_steam_id : string) (answer : ClientResponse) :
  Js.startsWith (url i) "/auth/steam" = true ->
  parse_oid_claimed_id_steam (Url.get (URL_searchParams (url i)) "openid.claimed_id")
  = inr claimed_steam_id ->
  undici_request (revalidation_url cfg (URL_searchParams (url i))) "POST"
  = inr answer ->
  res_statusCode answer <> 200 ->
  handle URL_searchParams undici_request cfg i o
  = mk_outcome (mk_response 500 (headers o) (body o) true)
      [(revalidation_url cfg (URL_searchParams (url i)), "POST")]
      [LogRequest (method i) (url i)]
      (inr tt).
Proof.
  intros Hpath Hid Hreq Hstatus. unfold handle.
  rewrite (callback_not_root _ Hpath), Hpath, Hid, Hreq. cbv zeta.
  apply Z.eqb_neq in Hstatus. now rewrite Hstatus.
Qed.

Lemma provider_status_not_200_witness :
  serve plain_searchParams (provider_answers 503 ("ns:a" ++ lf ++ "is_valid:true"))
        (mk_request "GET"
           "/auth/steam?openid.claimed_id=https://steamcommunity.com/openid/id/00000000000000000")
  = mk_outcome (mk_response 500 [] "" true)
      [(revalidation_url config
          (plain_searchParams
             "/auth/steam?openid.claimed_id=https://steamcommunity.com/openid/id/00000000000000000"),
        "POST")]
      [LogRequest "GET"
         "/auth/steam?openid.claimed_id=https://steamcommunity.com/openid/id/00000000000000000"]
      (inr tt).
Proof.
  apply (provider_status_not_200 plain_searchParams
           (provider_answers 503 ("ns:a" ++ lf ++ "is_valid:true")) config
           (mk_request "GET"
              "/auth/steam?openid.claimed_id=https://steamcommunity.com/openid/id/00000000000000000")
           fresh_response "00000000000000000"
           (mk_client_response 503 ("ns:a" ++ lf ++ "is_valid:true")));
    [reflexivity | reflexivity | reflexivity | discriminate].
Defined.

(** X12.  When the provider answers with status 200 and a body the
    parser rejects, [handle] logs the status, the body and the
    exception, sets status 500 and ends the response; the exception does
    not leave [handle]. *)
Theorem provider_body_rejected
        (URL_searchParams : string -> list (string * string))
        (undici_request : Url.t -> string -> throws ClientResponse)
        (cfg : Config) (i : IncomingMessage) (o : ServerResponse)
        (claimed_steam_id : string) (answer : ClientResponse) (err_parse : exn) :
  Js.startsWith (url i) "/auth/steam" = true ->
  parse_oid_claimed_id_steam (Url.get (URL_searchParams (url i)) "openid.claimed_id")
  = inr claimed_steam_id ->
  undici_request (revalidation_url cfg (URL_searchParams (url i))) "POST"
  = inr answer ->
  res_statusCode answer = 200 ->
  parse_oid_check_authentication (res_body answer) = inl err_parse ->
  handle URL_searchParams undici_request cfg i o
  = mk_outcome (mk_response 500 (headers o) (body o) true)
      [(revalidation_url cfg (URL_searchParams (url i)), "POST")]
      [LogRequest (method i) (url i);
       LogParseFailure 200 (res_body answer) err_parse]
      (inr tt).
Proof.
  intros Hpath Hid Hreq Hstatus Hparse. unfold handle.
  now rewrite (callback_not_root _ Hpath), Hpath, Hid, Hreq, Hstatus, Hparse.
Qed.

Lemma provider_body_rejected_witness :
  response
    (serve plain_searchParams (provider_answers 200 ("is_valid:yes" ++ lf))
       (mk_request "GET"
          "/auth/steam?openid.claimed_id=https://steamcommunity.com/openid/id/00000000000000000"))
  = mk_response 500 [] "" true.
Proof.
  exact (f_equal response
           (provider_body_rejected plain_searchParams
              (provider_answers 200 ("is_valid:yes" ++ lf)) config
              (mk_request "GET"
                 "/auth/steam?openid.claimed_id=https://steamcommunity.com/openid/id/00000000000000000")
              fresh_response "00000000000000000"
              (mk_client_response 200 ("is_valid:yes" ++ lf))
              (Error "Could not parse value 'is_valid' as boolean")
              eq_refl eq_refl eq_refl eq_refl eq_refl)).
Defined.

(** X13.  When [undici.request] throws, the exception leaves [handle]:
    the request was issued, but no status is set and the response is not
    ended. *)
Theorem provider_unreachable
        (URL_searchParams : string -> list (string * string))
        (undici_request : Url.t -> string -> throws ClientResponse)
        (cfg : Config) (i : IncomingMessage) (o : ServerResponse)
        (claimed_steam_id : string) (e : exn) :
  Js.startsWith (url i) "/auth/steam" = true ->
  parse_oid_claimed_id_steam (Url.get (URL_searchParams (url i)) "openid.claimed_id")
  = inr claimed_steam_id ->
  undici_request (revalidation_url cfg (URL_searchParams (url i))) "POST" = inl e ->
  handle URL_searchParams undici_request cfg i o
  = mk_outcome o
      [(revalidation_url cfg (URL_searchParams (url i)), "POST")]
      [LogRequest (method i) (url i)]
      (inl e).
Proof.
  intros Hpath Hid Hreq. unfold handle.
  now rewrite (callback_not_root _ Hpath), Hpath, Hid, Hreq.
Qed.

Lemma provider_unreachable_witness :
  response
    (serve plain_searchParams (fun _ _ => inl (Error "connect ECONNREFUSED"))
       (mk_request "GET"
          "/auth/steam?openid.claimed_id=https://steamcommunity.com/openid/id/00000000000000000"))
  = fresh_response.
Proof.
  exact (f_equal response
           (provider_unreachable plain_searchParams
              (fun _ _ => inl (Error "connect ECONNREFUSED")) config
              (mk_request "GET"
                 "/auth/steam?openid.claimed_id=https://steamcommunity.com/openid/id/00000000000000000")
              fresh_response "00000000000000000" (Error "connect ECONNREFUSED")
              eq_refl eq_refl eq_refl)).
Defined.

(** X14.  For any configuration, the [Location] of the redirect is the
    configured URL without its query, followed by the configured
    parameters as the query (no question mark when there are none) and
    by the fragment of the configured URL when it has one. *)
Theorem redirect_location_any_config
        (URL_searchParams : string -> list (string * string))
        (undici_request : Url.t -> string -> throws ClientResponse)
        (cfg : Config) (i : IncomingMessage) (o : ServerResponse) :
  url i = "/" ->
  getHeader (response (handle URL_searchParams undici_request cfg i o)) "Location"
  = Some (Url.base (steam_openid_url cfg)
          ++ match Obj.entries (steam_openid_params cfg) with
             | [] => ""
             | es => "?" ++ Url.serialize es
             end
          ++ match Url.fragment (steam_openid_url cfg) with
             | None => ""
             | Some f => "#" ++ f
             end).
Proof.
  intros Hroot. unfold handle. rewrite Hroot.
  change (Js.seq "/" "/") with true. cbv iota zeta. cbn [response].
  unfold end_, set_statusCode, getHeader. cbn [headers].
  change (Url.get (headers (setHeader o "Location" ?v)) (toLowerCase "Location"))
    with (getHeader (setHeader o "Location" v) "Location").
  rewrite getHeader_setHeader. f_equal.
  destruct (Obj.entries (steam_openid_params cfg)) as [|e es] eqn:E.
  - reflexivity.
  - rewrite rebuilt_address by discriminate. now rewrite app_assoc_string.
Qed.

Lemma redirect_location_any_config_witness :
  getHeader
    (response
       (handle plain_searchParams (provider_answers 200 "")
          (mk_config "::1" 80
             (Url.mk "https://example.org/login" (Some "old=1") [("old", "1")]
                     (Some "top"))
             (object_literal [("openid.realm", "http://a b/")]))
          (mk_request "POST" "/") fresh_response))
    "Location"
  = Some "https://example.org/login?openid.realm=http%3A%2F%2Fa+b%2F#top".
Proof.
  exact (redirect_location_any_config plain_searchParams (provider_answers 200 "")
           (mk_config "::1" 80
              (Url.mk "https://example.org/login" (Some "old=1") [("old", "1")]
                      (Some "top"))
              (object_literal [("openid.realm", "http://a b/")]))
           (mk_request "POST" "/") fresh_response eq_refl).
Defined.

(** X15.  When [openid.claimed_id] is received more than once, the
    identity that [handle] extracts and reports is that of its first
    occurrence, while the re-validation request carries its last
    occurrence. *)
Theorem callback_reports_first_checks_last
        (URL_searchParams : string -> list (string * string))
        (undici_request : Url.t -> string -> throws ClientResponse)
        (cfg : Config) (i : IncomingMessage) (o : ServerResponse)
        (first_claimed last_claimed claimed_steam_id : string)
        (answer : ClientResponse) (parsed : check_authentication) :
  Js.startsWith (url i) "/auth/steam" = true ->
  Url.get (URL_searchParams (url i)) "openid.claimed_id" = Some first_claimed ->
  Url.get (rev (URL_searchParams (url i))) "openid.claimed_id" = Some last_claimed ->
  parse_oid_claimed_id_steam (Some first_claimed) = inr claimed_steam_id ->
  undici_request (revalidation_url cfg (URL_searchParams (url i))) "POST"
  = inr answer ->
  res_statusCode answer = 200 ->
  parse_oid_check_authentication (res_body answer) = inr parsed ->
  let out := handle URL_searchParams undici_request cfg i o in
  console out = [LogRequest (method i) (url i);
                 LogAuthenticated claimed_steam_id (is_valid parsed)]
  /\ exists sent,
      requests out = [(sent, "POST")]
      /\ Url.get (Url.searchParams sent) "openid.claimed_id" = Some last_claimed.
Proof.
  intros Hpath Hfirst Hlast Hid Hreq Hstatus Hparse. cbv zeta. unfold handle.
  rewrite (callback_not_root _ Hpath), Hpath, Hfirst, Hid, Hreq, Hstatus, Hparse.
  simpl. split; [reflexivity|].
  exists (revalidation_url cfg (URL_searchParams (url i))). split; [reflexivity|].
  now rewrite get_revalidation_url.
Qed.

Lemma callback_reports_first_checks_last_witness :
  let out :=
    serve plain_searchParams
          (provider_answers 200 ("ns:http://specs.openid.net/auth/2.0" ++ lf
                                 ++ "is_valid:true" ++ lf))
          (mk_request "GET"
             "/auth/steam?openid.claimed_id=https://steamcommunity.com/openid/id/11111111111111111&openid.claimed_id=https://steamcommunity.com/openid/id/22222222222222222")
  in
  console out
  = [LogRequest "GET"
       "/auth/steam?openid.claimed_id=https://steamcommunity.com/openid/id/11111111111111111&openid.claimed_id=https://steamcommunity.com/openid/id/22222222222222222";
     LogAuthenticated "11111111111111111" true]
  /\ exists sent,
      requests out = [(sent, "POST")]
      /\ Url.get (Url.searchParams sent) "openid.claimed_id"
         = Some "https://steamcommunity.com/openid/id/22222222222222222".
Proof.
  exact (callback_reports_first_checks_last plain_searchParams
           (provider_answers 200 ("ns:http://specs.openid.net/auth/2.0" ++ lf
                                  ++ "is_valid:true" ++ lf))
           config
           (mk_request "GET"
              "/auth/steam?openid.claimed_id=https://steamcommunity.com/openid/id/11111111111111111&openid.claimed_id=https://steamcommunity.com/openid/id/22222222222222222")
           fresh_response
           "https://steamcommunity.com/openid/id/11111111111111111"
           "https://steamcommunity.com/openid/id/22222222222222222"
           "11111111111111111"
           (mk_client_response 200 ("ns:http://specs.openid.net/auth/2.0" ++ lf
                                    ++ "is_valid:true" ++ lf))
           (mk_check "http://specs.openid.net/auth/2.0" true)
           eq_refl eq_refl eq_refl eq_refl eq_refl eq_refl eq_refl).
Defined.

(** X16.  A target that is not [/] and does not start with [/auth/steam]
    is answered without any outbound request: with status 204 when it
    is exactly [/favicon.ico], and with status 404 otherwise (so also
    for [/favicon.ico] followed by a query); the response is ended, its
    headers and body are untouched. *)
Theorem other_targets
        (URL_searchParams : string -> list (string * string))
        (undici_request : Url.t -> string -> throws ClientResponse)
        (cfg : Config) (i : IncomingMessage) (o : ServerResponse) :
  url i <> "/" ->
  Js.startsWith (url i) "/auth/steam" = false ->
  handle URL_searchParams undici_request cfg i o
  = mk_outcome
      (mk_response (if String.eqb (url i) "/favicon.ico" then 204 else 404)
                   (headers o) (body o) true)
      [] [LogRequest (method i) (url i)] (inr tt).
Proof.
  intros Hroot Hpath. unfold handle, Js.seq. apply String.eqb_neq in Hroot.
  rewrite Hroot, Hpath. now destruct (String.eqb (url i) "/favicon.ico").
Qed.

Lemma other_targets_witness :
  (response (serve plain_searchParams (provider_answers 200 "")
                   (mk_request "GET" "/favicon.ico"))
   = mk_response 204 [] "" true)
  /\ (response (serve plain_searchParams (provider_answers 200 "")
                      (mk_request "GET" "/favicon.ico?v=2"))
      = mk_response 404 [] "" true)
  /\ (response (serve plain_searchParams (provider_answers 200 "")
                      (mk_request "GET" "/auth/stea"))
      = mk_response 404 [] "" true).
Proof.
  split; [|split].
  - exact (f_equal response
             (other_targets plain_searchParams (provider_answers 200 "") config
                (mk_request "GET" "/favicon.ico") fresh_response
                ltac:(discriminate) eq_refl)).
  - exact (f_equal response
             (other_targets plain_searchParams (provider_answers 200 "") config
                (mk_request "GET" "/favicon.ico?v=2") fresh_response
                ltac:(discriminate) eq_refl)).
  - exact (f_equal response
             (other_targets plain_searchParams (provider_answers 200 "") config
                (mk_request "GET" "/auth/stea") fresh_response
                ltac:(discriminate) eq_refl)).
Defined.

(** X17.  On a callback target, [handle] returns with status 200 only
    after the provider answered the re-validation with status 200 and a
    body parsed to [is_valid] true, and with status 401 only after such
    an answer with [is_valid] false; in both cases the identity it
    reports is the one extracted from the first [openid.claimed_id]. *)
Theorem verdict_comes_from_provider
        (URL_searchParams : string -> list (string * string))
        (undici_request : Url.t -> string -> throws ClientResponse)
        (cfg : Config) (i : IncomingMessage) (o : ServerResponse) (b : bool) :
  Js.startsWith (url i) "/auth/steam" = true ->
  let out := handle URL_searchParams undici_request cfg i o in
  settled out = inr tt ->
  statusCode (response out) = (if b then 200 else 401) ->
  exists claimed_id claimed_steam_id answer parsed,
    Url.get (URL_searchParams (url i)) "openid.claimed_id" = Some claimed_id
    /\ parse_oid_claimed_id_steam (Some claimed_id) = inr claimed_steam_id
    /\ undici_request (revalidation_url cfg (URL_searchParams (url i))) "POST"
       = inr answer
    /\ res_statusCode answer = 200
    /\ parse_oid_check_authentication (res_body answer) = inr parsed
    /\ is_valid parsed = b
    /\ In (LogAuthenticated claimed_steam_id b) (console out).
Proof.
  intros Hpath. cbv zeta. unfold handle. rewrite (callback_not_root _ Hpath), Hpath.
  destruct (Url.get (URL_searchParams (url i)) "openid.claimed_id") as [c|] eqn:Ec;
    [|simpl; discriminate].
  destruct (parse_oid_claimed_id_steam (Some c)) as [e|id] eqn:Eid; [simpl; discriminate|].
  cbv zeta.
  destruct (undici_request _ _) as [e|answer] eqn:Ereq; [simpl; discriminate|].
  destruct (res_statusCode answer =? 200) eqn:Est; simpl.
  - apply Z.eqb_eq in Est.
    destruct (parse_oid_check_authentication (res_body answer)) as [e|parsed] eqn:Ep;
      simpl.
    + intros _ H. destruct b; discriminate.
    + intros _ H. exists c, id, answer, parsed.
      assert (is_valid parsed = b) as <- by (destruct (is_valid parsed), b; congruence).
      repeat split; try assumption. right. now left.
  - intros _ H. destruct b; discriminate.
Qed.

Lemma verdict_comes_from_provider_witness :
  exists claimed_id claimed_steam_id answer parsed,
    Url.get (plain_searchParams
               "/auth/steam?openid.claimed_id=https://steamcommunity.com/openid/id/00000000000000000")
            "openid.claimed_id" = Some claimed_id
    /\ parse_oid_claimed_id_steam (Some claimed_id) = inr claimed_steam_id
    /\ provider_answers 200 ("ns:a" ++ lf ++ "is_valid:false")
         (revalidation_url config
            (plain_searchParams
               "/auth/steam?openid.claimed_id=https://steamcommunity.com/openid/id/00000000000000000"))
         "POST"
       = inr answer
    /\ res_statusCode answer = 200
    /\ parse_oid_check_authentication (res_body answer) = inr parsed
    /\ is_valid parsed = false
    /\ In (LogAuthenticated claimed_steam_id false)
          (console
             (handle plain_searchParams
                (provider_answers 200 ("ns:a" ++ lf ++ "is_valid:false")) config
                (mk_request "GET"
                   "/auth/steam?openid.claimed_id=https://steamcommunity.com/openid/id/00000000000000000")
                fresh_response)).
Proof.
  exact (verdict_comes_from_provider plain_searchParams
           (provider_answers 200 ("ns:a" ++ lf ++ "is_valid:false")) config
           (mk_request "GET"
              "/auth/steam?openid.claimed_id=https://steamcommunity.com/openid/id/00000000000000000")
           fresh_response false eq_refl eq_refl eq_refl).
Defined.

(* ================================================================== *)
(** * The order of the fields of the re-validation request *)

Lemma insert_by_index_sorted (kv : string * string) (l : list (string * string)) :
  StronglySorted (fun a b => (Obj.index_of a <= Obj.index_of b)%N) l ->
  StronglySorted (fun a b => (Obj.index_of a <= Obj.index_of b)%N)
                 (Obj.insert_by_index kv l).
Proof.
  induction 1 as [|kv' l Hs IH Hall]; simpl.
  - repeat constructor.
  - destruct (Obj.index_of kv <=? Obj.index_of kv')%N eqn:E.
    + apply N.leb_le in E. constructor; [now constructor|].
      constructor; [assumption|].
      revert Hall. apply Forall_impl. intros x Hx. now transitivity (Obj.index_of kv').
    + apply N.leb_gt in E. constructor; [assumption|].
      apply insert_by_index_Forall; [now apply N.lt_le_incl | assumption].
Qed.

Lemma sort_by_index_sorted (l : list (string * string)) :
  StronglySorted (fun a b => (Obj.index_of a <= Obj.index_of b)%N) (Obj.sort_by_index l).
Proof.
  induction l as [|kv l IH]; simpl; [constructor | now apply insert_by_index_sorted].
Qed.

Lemma insert_by_index_least (kv : string * string) (l : list (string * string)) :
  Forall (fun x => (Obj.index_of kv <= Obj.index_of x)%N) l ->
  Obj.insert_by_index kv l = kv :: l.
Proof.
  destruct 1 as [|x l Hx _]; simpl; [reflexivity|].
  apply N.leb_le in Hx. now rewrite Hx.
Qed.

(** Fields that have their array-index keys first and ascending are
    listed by [Object.entries] as they are. *)
Lemma indexes_first_entries (fields : list (string * string)) :
  indexes_first fields = true -> Obj.entries fields = fields.
Proof.
  unfold Obj.entries. induction fields as [|kv rest IH]; [reflexivity|].
  simpl. destruct (Obj.is_index kv) eqn:E; simpl; intros H.
  - apply andb_true_iff in H as [Hle Hrest].
    rewrite insert_by_index_least.
    + simpl. f_equal. now apply IH.
    + apply sort_by_index_Forall, Forall_forall. intros x Hx.
      apply filter_In in Hx as [Hx Hidx].
      rewrite forallb_forall in Hle. specialize (Hle x Hx).
      rewrite Hidx in Hle. simpl in Hle. now apply N.leb_le.
  - rewrite forallb_forall in H.
    rewrite (filter_none Obj.is_index rest).
    + simpl. f_equal. apply filter_all, Forall_forall. intros x Hx. now apply H.
    + apply Forall_forall. intros x Hx. now apply negb_true_iff, H.
Qed.

Lemma indexes_first_sorted_app (indexed others : list (string * string)) :
  StronglySorted (fun a b => (Obj.index_of a <= Obj.index_of b)%N) indexed ->
  Forall (fun kv => Obj.is_index kv = true) indexed ->
  Forall (fun kv => Obj.is_index kv = false) others ->
  indexes_first (indexed ++ others) = true.
Proof.
  intros Hs Hi Ho. induction Hs as [|kv l Hs IH Hall].
  - simpl. induction Ho as [|x others Hx Ho IHo]; [reflexivity|].
    simpl. rewrite Hx. apply forallb_forall. intros y Hy.
    rewrite Forall_forall in Ho. now rewrite (Ho y Hy).
  - inversion Hi as [|? ? Hkv Hl]; subst. simpl. rewrite Hkv.
    apply andb_true_iff. split; [|now apply IH].
    apply forallb_forall. intros y Hy. apply in_app_or in Hy as [Hy | Hy].
    + rewrite Forall_forall in Hall. apply orb_true_iff. right.
      now apply N.leb_le, Hall.
    + rewrite Forall_forall in Ho. now rewrite (Ho y Hy).
Qed.

(** What [Object.entries] lists has its array-index keys first and
    ascending. *)
Lemma entries_indexes_first (o : Obj.t) : indexes_first (Obj.entries o) = true.
Proof.
  unfold Obj.entries. apply indexes_first_sorted_app.
  - apply sort_by_index_sorted.
  - apply sort_by_index_Forall, Forall_forall. intros x Hx. now apply filter_In in Hx.
  - apply Forall_forall. intros x Hx. apply filter_In in Hx as [_ Hx].
    now apply negb_true_iff.
Qed.

Lemma NoDup_distinct (l : list string) : NoDup l -> distinct l = true.
Proof.
  induction 1 as [|k l Hk _ IH]; simpl; [reflexivity|].
  rewrite IH, andb_true_r. apply negb_true_iff.
  destruct (existsb (String.eqb k) l) eqn:E; [|reflexivity].
  apply existsb_exists in E as (x & Hx & Ex). apply String.eqb_eq in Ex. now subst x.
Qed.

Lemma build_params_out_no_proto (params_in : list (string * string)) :
  Forall (fun kv => fst kv <> "__proto__") (build_params_out params_in).
Proof.
  unfold build_params_out.
  assert (Forall (fun kv : string * string => fst kv <> "__proto__")
                 (object_literal [("openid.mode", "check_authentication")]))
    as H by (repeat constructor; discriminate).
  revert H. generalize (object_literal [("openid.mode", "check_authentication")]).
  induction params_in as [|[k v] l IH]; intros acc H; simpl; [assumption|].
  apply IH. destruct (Js.seq k "openid.mode"); [assumption|].
  unfold Obj.set. destruct (String.eqb k "__proto__") eqn:E; [assumption|].
  apply define_Forall; [assumption | now apply String.eqb_neq].
Qed.

Lemma mode_fields_entries (rest : Obj.t) :
  Forall (fun kv => is_mode kv = false) rest ->
  mode_fields (Obj.entries (check_authentication_mode :: rest))
  = [check_authentication_mode].
Proof.
  intros Hrest. unfold Obj.entries, mode_fields. rewrite filter_app.
  change (filter Obj.is_index (check_authentication_mode :: rest))
    with (filter Obj.is_index rest).
  change (filter (fun kv => negb (Obj.is_index kv)) (check_authentication_mode :: rest))
    with (check_authentication_mode :: filter (fun kv => negb (Obj.is_index kv)) rest).
  rewrite filter_none.
  - simpl. f_equal. apply filter_none. revert Hrest. now apply Forall_filter_impl.
  - apply sort_by_index_Forall. revert Hrest. now apply Forall_filter_impl.
Qed.

Lemma non_mode_fields_entries (rest : Obj.t) :
  Forall (fun kv => is_mode kv = false) rest ->
  non_mode_fields (Obj.entries (check_authentication_mode :: rest)) = Obj.entries rest.
Proof.
  intros Hrest. unfold Obj.entries, non_mode_fields. rewrite filter_app.
  change (filter Obj.is_index (check_authentication_mode :: rest))
    with (filter Obj.is_index rest).
  change (filter (fun kv => negb (Obj.is_index kv)) (check_authentication_mode :: rest))
    with (check_authentication_mode :: filter (fun kv => negb (Obj.is_index kv)) rest).
  rewrite filter_all.
  - f_equal. simpl. apply filter_all.
    revert Hrest. apply Forall_filter_impl. now intros x ->.
  - apply sort_by_index_Forall. revert Hrest. apply Forall_filter_impl. now intros x ->.
Qed.

Lemma non_mode_fields_not_mode (l : list (string * string)) :
  Forall (fun kv => is_mode kv = false) (non_mode_fields l).
Proof.
  apply Forall_forall. intros x Hx. apply filter_In in Hx as [_ Hx].
  now apply negb_true_iff.
Qed.

(** The fields of the URL sent for [params_in]: one [openid.mode], and
    the other received fields as they were received exactly when an
    object keeps them so. *)
Lemma sent_fields (cfg : Config) (params_in : list (string * string)) :
  mode_fields (Url.searchParams (revalidation_url cfg params_in))
  = [check_authentication_mode]
  /\ (non_mode_fields (Url.searchParams (revalidation_url cfg params_in))
      = non_mode_fields params_in
      <-> kept_as_received (non_mode_fields params_in) = true).
Proof.
  rewrite searchParams_revalidation_url. split.
  - destruct (build_params_out_shape params_in) as (rest & -> & Hrest).
    now apply mode_fields_entries.
  - split.
    + pose proof (build_params_out_NoDup params_in) as Hnd.
      pose proof (build_params_out_no_proto params_in) as Hnp.
      destruct (build_params_out_shape params_in) as (rest & Hb & Hrest).
      rewrite Hb in *. rewrite (non_mode_fields_entries _ Hrest). intros H.
      inversion Hnd as [|? ? _ Hnd']; subst. inversion Hnp as [|? ? _ Hnp']; subst.
      unfold kept_as_received. rewrite <- H.
      rewrite entries_indexes_first, andb_true_r. apply andb_true_iff. split.
      * apply NoDup_distinct.
        apply (Permutation_NoDup
                 (Permutation_map fst (Permutation_sym (entries_Permutation rest)))
                 Hnd').
      * apply forallb_forall. intros x Hx. apply negb_true_iff, String.eqb_neq.
        rewrite Forall_forall in Hnp'. apply Hnp'.
        apply (Permutation_in _ (entries_Permutation rest) Hx).
    + intros H. unfold kept_as_received in H.
      apply andb_true_iff in H as [H Hidx]. apply andb_true_iff in H as [Hd Hnp].
      unfold build_params_out.
      change (object_literal [("openid.mode", "check_authentication")])
        with (check_authentication_mode :: []).
      rewrite build_params_out_fresh.
      * simpl app. rewrite (non_mode_fields_entries _ (non_mode_fields_not_mode _)).
        now apply indexes_first_entries.
      * now apply distinct_NoDup.
      * apply Forall_forall. intros x Hx. rewrite forallb_forall in Hnp.
        now apply String.eqb_neq, negb_true_iff, Hnp.
      * intros k Hk [<- | []]. apply in_map_iff in Hk as ([k' v'] & Hk' & Hin).
        apply filter_In in Hin as [_ Hin]. simpl in Hk'. subst k'. discriminate.
Qed.

(** Every request [handle] sends is the POST to the re-validation URL. *)
Lemma handle_sends
      (URL_searchParams : string -> list (string * string))
      (undici_request : Url.t -> string -> throws ClientResponse)
      (cfg : Config) (i : IncomingMessage) (o : ServerResponse)
      (sent : Url.t) (m : string) :
  In (sent, m) (requests (handle URL_searchParams undici_request cfg i o)) ->
  sent = revalidation_url cfg (URL_searchParams (url i)) /\ m = "POST".
Proof.
  unfold handle.
  destruct (Js.seq (url i) "/"); [intros []|].
  destruct (Js.startsWith (url i) "/auth/steam").
  - destruct (parse_oid_claimed_id_steam _) as [e|id]; [intros []|]. cbv zeta.
    assert (forall l : list ClientRequest,
               l = [(revalidation_url cfg (URL_searchParams (url i)), "POST")] ->
               In (sent, m) l ->
               sent = revalidation_url cfg (URL_searchParams (url i)) /\ m = "POST")
      as Hone by (intros l -> [[= <- <-] | []]; now split).
    destruct (undici_request _ _) as [e|answer]; [now apply Hone|].
    destruct (negb (res_statusCode answer =? 200)); [now apply Hone|].
    destruct (parse_oid_check_authentication _); now apply Hone.
  - destruct (Js.seq (url i) "/favicon.ico"); intros [].
Qed.

(** A callback whose identity is extracted sends the POST to the
    re-validation URL, whatever the provider answers. *)
Lemma callback_sends
      (URL_searchParams : string -> list (string * string))
      (undici_request : Url.t -> string -> throws ClientResponse)
      (cfg : Config) (i : IncomingMessage) (o : ServerResponse)
      (claimed_steam_id : string) :
  Js.startsWith (url i) "/auth/steam" = true ->
  parse_oid_claimed_id_steam (Url.get (URL_searchParams (url i)) "openid.claimed_id")
  = inr claimed_steam_id ->
  In (revalidation_url cfg (URL_searchParams (url i)), "POST")
     (requests (handle URL_searchParams undici_request cfg i o)).
Proof.
  intros Hpath Hid. unfold handle.
  rewrite (callback_not_root _ Hpath), Hpath, Hid. cbv zeta.
  destruct (undici_request _ _) as [e|answer]; [now left|].
  destruct (negb (res_statusCode answer =? 200)); [now left|].
  destruct (parse_oid_check_authentication _); now left.
Qed.

(* ================================================================== *)
(** * What the re-validation request forwards *)

(** C5, as the specification states it, fails on a callback that
    [handle] re-validates: a key received twice is forwarded once, with
    its last value. *)
Lemma repeated_key_not_forwarded :
  ~ forwards_unchanged plain_searchParams
      (provider_answers 200 ("ns:http://specs.openid.net/auth/2.0" ++ lf
                             ++ "is_valid:true" ++ lf))
      config
      (mk_request "GET"
         "/auth/steam?openid.claimed_id=https://steamcommunity.com/openid/id/00000000000000000&openid.signed=first&openid.signed=second")
      fresh_response.
Proof.
  intros H.
  assert (Js.startsWith
            "/auth/steam?openid.claimed_id=https://steamcommunity.com/openid/id/00000000000000000&openid.signed=first&openid.signed=second"
            "/auth/steam" = true) as Hpath by reflexivity.
  assert (parse_oid_claimed_id_steam
            (Url.get
               (plain_searchParams
                  "/auth/steam?openid.claimed_id=https://steamcommunity.com/openid/id/00000000000000000&openid.signed=first&openid.signed=second")
               "openid.claimed_id")
          = inr "00000000000000000") as Hid by (vm_compute; reflexivity).
  destruct (H _ _ (callback_sends plain_searchParams _ config
                     (mk_request "GET" _) fresh_response _ Hpath Hid))
    as [_ Hfields].
  vm_compute in Hfields. discriminate.
Qed.

(** C5, amended.  Every re-validation request that [handle] sends holds
    exactly one [openid.mode] field, with the value
    [check_authentication]; and it holds every other received field,
    unchanged and in the received order, exactly when no key other than
    [openid.mode] is received twice, none of them is [__proto__], and
    those that are array indices are received before all others and in
    ascending order. *)
Theorem revalidation_request_fields
        (URL_searchParams : string -> list (string * string))
        (undici_request : Url.t -> string -> throws ClientResponse)
        (cfg : Config) (i : IncomingMessage) (o : ServerResponse)
        (sent : Url.t) (m : string) :
  In (sent, m) (requests (handle URL_searchParams undici_request cfg i o)) ->
  mode_fields (Url.searchParams sent) = [check_authentication_mode]
  /\ (non_mode_fields (Url.searchParams sent)
      = non_mode_fields (URL_searchParams (url i))
      <-> kept_as_received (non_mode_fields (URL_searchParams (url i))) = true).
Proof.
  intros Hsent. apply handle_sends in Hsent as [-> _]. apply sent_fields.
Qed.

Lemma revalidation_request_fields_witness :
  let i :=
    mk_request "GET"
      "/auth/steam?0=a&openid.ns=http://specs.openid.net/auth/2.0&openid.mode=id_res&openid.claimed_id=https://steamcommunity.com/openid/id/00000000000000000&openid.sig=c2lnbmF0dXJl" in
  let sent := revalidation_url config (plain_searchParams (url i)) in
  mode_fields (Url.searchParams sent) = [check_authentication_mode]
  /\ non_mode_fields (Url.searchParams sent)
     = [("0", "a");
        ("openid.ns", "http://specs.openid.net/auth/2.0");
        ("openid.claimed_id", "https://steamcommunity.com/openid/id/00000000000000000");
        ("openid.sig", "c2lnbmF0dXJl")].
Proof.
  intros i sent.
  assert (Js.startsWith (url i) "/auth/steam" = true) as Hpath by reflexivity.
  assert (parse_oid_claimed_id_steam
            (Url.get (plain_searchParams (url i)) "openid.claimed_id")
          = inr "00000000000000000") as Hid by (vm_compute; reflexivity).
  destruct (revalidation_request_fields plain_searchParams
              (provider_answers 200 ("ns:http://specs.openid.net/auth/2.0" ++ lf
                                     ++ "is_valid:true" ++ lf))
              config i fresh_response sent "POST"
              (callback_sends plain_searchParams _ config i fresh_response _ Hpath Hid))
    as [Hmode Hrest].
  split; [exact Hmode|].
  assert (kept_as_received (non_mode_fields (plain_searchParams (url i))) = true)
    as Hkept by (vm_compute; reflexivity).
  rewrite (proj2 Hrest Hkept). vm_compute. reflexivity.
Defined.

(* ================================================================== *)
(** * Which fields the re-validation request holds, and where *)

Lemma In_get (l : list (string * string)) (k v : string) :
  NoDup (map fst l) -> (In (k, v) l <-> Url.get l k = Some v).
Proof.
  induction l as [|[k0 v0] l IH]; simpl; intros Hnd.
  - split; [contradiction | discriminate].
  - inversion Hnd as [|? ? Hk0 Hnd']; subst. destruct (String.eqb k0 k) eqn:E.
    + apply String.eqb_eq in E. subst k0. split.
      * intros [[= ->] | Hin]; [reflexivity|].
        elim Hk0. apply in_map_iff. now exists (k, v).
      * intros [= ->]. now left.
    + apply String.eqb_neq in E. rewrite <- (IH Hnd'). split.
      * intros [[= -> _] | Hin]; [contradiction | assumption].
      * intros Hin. now right.
Qed.

(** X18.  The re-validation request holds, first, fields with
    array-index keys in ascending order of the index, then
    [openid.mode], then fields with other keys; and these fields are
    exactly, for every key received other than [openid.mode] and
    [__proto__], that key with the value it was received with last. *)
Theorem index_keys_sent_first (params_in : list (string * string)) :
  exists indexed others,
    revalidation_fields params_in
    = (indexed ++ check_authentication_mode :: others)%list
    /\ Forall (fun kv => Obj.is_index kv = true) indexed
    /\ StronglySorted (fun a b => (Obj.index_of a <= Obj.index_of b)%N) indexed
    /\ Forall (fun kv => Obj.is_index kv = false) others
    /\ (forall k v,
           In (k, v) (indexed ++ others)
           <-> k <> "openid.mode" /\ k <> "__proto__"
               /\ Url.get (rev params_in) k = Some v).
Proof.
  pose proof (get_revalidation_url config params_in) as Hget.
  fold (revalidation_fields params_in) in Hget.
  assert (NoDup (map fst (revalidation_fields params_in))) as Hnd.
  { rewrite revalidation_fields_entries.
    apply (Permutation_NoDup
             (Permutation_map fst (Permutation_sym (entries_Permutation _)))).
    apply build_params_out_NoDup. }
  rewrite revalidation_fields_entries in *.
  destruct (build_params_out_shape params_in) as (rest & Hb & Hrest).
  rewrite Hb in *.
  set (indexed := Obj.sort_by_index (filter Obj.is_index rest)) in *.
  set (others := filter (fun kv => negb (Obj.is_index kv)) rest) in *.
  assert (Obj.entries (check_authentication_mode :: rest)
          = (indexed ++ check_authentication_mode :: others)%list) as Hfields
    by reflexivity.
  rewrite Hfields in *.
  assert (Forall (fun kv => is_mode kv = false) indexed) as Hmi
    by (apply sort_by_index_Forall; revert Hrest; now apply Forall_filter_impl).
  assert (Forall (fun kv => is_mode kv = false) others) as Hmo
    by (revert Hrest; now apply Forall_filter_impl).
  exists indexed, others. split; [reflexivity|]. split; [|split; [|split]].
  - apply sort_by_index_Forall, Forall_forall. intros kv Hkv.
    now apply filter_In in Hkv.
  - apply sort_by_index_sorted.
  - apply Forall_forall. intros kv Hkv. apply filter_In in Hkv as [_ Hkv].
    now apply negb_true_iff.
  - intros k v. specialize (Hget k).
    assert (In (k, v) (indexed ++ others)
            <-> In (k, v) (indexed ++ check_authentication_mode :: others)
                /\ k <> "openid.mode") as ->.
    { split.
      - intros Hin. split.
        + apply in_app_or in Hin as [Hin | Hin]; apply in_or_app;
            [now left | right; now right].
        + intros ->. rewrite Forall_forall in Hmi, Hmo.
          apply in_app_or in Hin as [Hin | Hin];
            [apply Hmi in Hin | apply Hmo in Hin]; discriminate.
      - intros [Hin Hk]. apply in_app_or in Hin as [Hin | [[= <- _] | Hin]];
          [apply in_or_app; now left | now elim Hk | apply in_or_app; now right]. }
    rewrite (In_get _ k v Hnd), Hget.
    destruct (String.eqb k "openid.mode") eqn:Em.
    + apply String.eqb_eq in Em. split; [intros [_ Hk] | intros [Hk _]]; now elim Hk.
    + apply String.eqb_neq in Em. destruct (String.eqb k "__proto__") eqn:Ep.
      * apply String.eqb_eq in Ep. split; [intros [[=] _] | intros (_ & Hp & _)].
        now elim Hp.
      * apply String.eqb_neq in Ep. tauto.
Qed.
